(** * Delegating objects, js_plus and closures of the JavaScript/C++ rosetta stone

    Shallow embedding of the two C++ test programs
    [src/cpp_samples_test/src/main.cpp] (the "samples" variant) and
    [src/test/cpp/src/main.cpp] (the "test" variant). *)

From Stdlib Require Import ZArith Lia String Ascii QArith.
From stdpp Require Import base gmap strings list.

Open Scope Z_scope.

(** ** boost::any

    The dynamic values the tests store in a [boost::any]: the empty
    [any{}], [bool], [int] (a 32-bit C++ int kept as a [Z]), [double]
    (its value kept as a rational), [std::string], and a handle to a
    delegating object. *)
Inductive any :=
| AEmpty
| ABool (b : bool)
| AInt (z : Z)
| ADouble (q : Q)
| AString (s : string)
| AObj (h : nat).

(** ** Delegating_unordered_map

    A private [unordered_map<string, any>] plus the [__proto__] pointer
    (null is [None]); objects live in a heap indexed by handles, a handle
    standing for the address [__proto__] points to. *)
Record object := mk_object {
  own : gmap string any;
  __proto__ : option nat
}.

Abbreviation heap := (gmap nat object).

(** A reference [any&] returned by [operator[]]: the object owning the
    [unordered_map] slot, and its key. *)
Abbreviation loc := (nat * string)%type.

(** Reading the [any] an [any&] refers to. *)
Definition deref (h : heap) (l : loc) : option any :=
  match h !! l.1 with
  | Some obj => own obj !! l.2
  | None => None
  end.

(** Assigning through an [any&]: [ref = v]. *)
Definition assign (h : heap) (l : loc) (v : any) : heap :=
  match h !! l.1 with
  | Some obj => <[l.1 := mk_object (<[l.2 := v]> (own obj)) (__proto__ obj)]> h
  | None => h
  end.

(** [unordered_map<string, any>::operator[](key)]: inserts an empty [any]
    when the key is absent, and returns a reference to the slot. *)
Definition map_subscript (h : heap) (o : nat) (k : string) : option (loc * heap) :=
  match h !! o with
  | Some obj =>
      match own obj !! k with
      | Some _ => Some ((o, k), h)
      | None => Some ((o, k), <[o := mk_object (<[k := AEmpty]> (own obj)) (__proto__ obj)]> h)
      end
  | None => None
  end.

(** Recursion depth: every function below that follows [__proto__] takes a
    [fuel] bound on its recursion depth; [None] stands for a call that has
    not returned within that depth (a dangling handle also gives [None]). *)

(** *** The samples variant ([src/cpp_samples_test/src/main.cpp], 106-120)

<<
any& operator[](const string& key) {
    const auto found_value = find(key);
    if (found_value != end()) { return found_value->second; }
    if (__proto__) { return ( *__proto__)[key]; }
    return unordered_map<string, any>::operator[](key);
}
>> *)
Fixpoint subscript_rec (fuel : nat) (h : heap) (o : nat) (k : string)
  : option (loc * heap) :=
  match fuel with
  | O => None
  | S fuel' =>
      match h !! o with
      | None => None
      | Some obj =>
          match own obj !! k with
          | Some _ => Some ((o, k), h)
          | None =>
              match __proto__ obj with
              | Some p => subscript_rec fuel' h p k
              | None => map_subscript h o k
              end
          end
      end
  end.

(** *** The test variant ([src/test/cpp/src/main.cpp], 107-127) *)

(** An iterator returned by [find_in_chain]: into the map of object [q]
    (at the key looked up), or the receiver's own [end()]. *)
Inductive iterator :=
| It (q : nat)
| End.

(**
<<
auto find_in_chain(const string& key) {
    auto found_value = find(key);
    if (found_value != end()) return found_value;
    if (__proto__) {
        auto found_value = __proto__->find_in_chain(key);
        if (found_value != __proto__->end()) return found_value;
    }
    return end();
}
>>
    The prototype's answer is compared with the prototype's [end()]:
    [End] from the recursive call is that [end()]. *)
Fixpoint find_in_chain (fuel : nat) (h : heap) (o : nat) (k : string)
  : option iterator :=
  match fuel with
  | O => None
  | S fuel' =>
      match h !! o with
      | None => None
      | Some obj =>
          match own obj !! k with
          | Some _ => Some (It o)
          | None =>
              match __proto__ obj with
              | Some p =>
                  match find_in_chain fuel' h p k with
                  | None => None
                  | Some (It q) => Some (It q)
                  | Some End => Some End
                  end
              | None => Some End
              end
          end
      end
  end.

(**
<<
any& operator[](const string& key) {
    auto found_value = find_in_chain(key);
    if (found_value != end()) return found_value->second;
    return unordered_map<string, any>::operator[](key);
}
>> *)
Definition subscript_fic (fuel : nat) (h : heap) (o : nat) (k : string)
  : option (loc * heap) :=
  match find_in_chain fuel h o k with
  | None => None
  | Some (It q) => Some ((q, k), h)
  | Some End => map_subscript h o k
  end.

(** Reading [o[key]] and assigning [o[key] = v] through either variant. *)
Definition subscript_value
  (sub : nat -> heap -> nat -> string -> option (loc * heap))
  (fuel : nat) (h : heap) (o : nat) (k : string) : option any :=
  match sub fuel h o k with
  | Some (l, h') => deref h' l
  | None => None
  end.

Definition subscript_assign
  (sub : nat -> heap -> nat -> string -> option (loc * heap))
  (fuel : nat) (h : heap) (o : nat) (k : string) (v : any) : option heap :=
  match sub fuel h o k with
  | Some (l, h') => Some (assign h' l v)
  | None => None
  end.

(** A prototype chain: the handles met from [o] following [__proto__],
    ending at a null [__proto__]. *)
Inductive chain (h : heap) : nat -> list nat -> Prop :=
| chain_null o obj :
    h !! o = Some obj -> __proto__ obj = None -> chain h o [o]
| chain_proto o obj p hs :
    h !! o = Some obj -> __proto__ obj = Some p -> chain h p hs ->
    chain h o (o :: hs).

(** The value a lookup should find along a chain: the first own value. *)
Fixpoint chain_value (h : heap) (hs : list nat) (k : string) : option any :=
  match hs with
  | [] => Some AEmpty
  | q :: hs' =>
      match h !! q with
      | Some obj =>
          match own obj !! k with
          | Some v => Some v
          | None => chain_value h hs' k
          end
      | None => None
      end
  end.

(** The key is no own property of any object of [hs]. *)
Definition absent_in (h : heap) (hs : list nat) (k : string) : Prop :=
  Forall (fun q => match h !! q with
                   | Some obj => own obj !! k = None
                   | None => False
                   end) hs.

(** The prototypal_inheritance_test heap: [o] is 0, [o_proto] is 1. *)
Definition proto_test_heap : heap :=
  <[0%nat := mk_object (<["a" := AInt 1]> (<["b" := AInt 2]> ∅)) (Some 1%nat)]>
  (<[1%nat := mk_object (<["b" := AInt 3]> (<["c" := AInt 4]> ∅)) None]> ∅).

(** The object of [hs] whose own property [k] a lookup finds. *)
Fixpoint first_owner (h : heap) (hs : list nat) (k : string) : option nat :=
  match hs with
  | [] => None
  | q :: hs' =>
      match h !! q with
      | Some obj =>
          match own obj !! k with
          | Some _ => Some q
          | None => first_owner h hs' k
          end
      | None => None
      end
  end.

(** ** Outcomes of C++ evaluation

    A computation either returns, throws [boost::bad_any_cast], or hits
    undefined behaviour (signed [int] overflow). *)
Inductive result (A : Type) :=
| Ok (a : A)
| Bad_any_cast
| Undefined_behavior.
Arguments Ok {A} a.
Arguments Bad_any_cast {A}.
Arguments Undefined_behavior {A}.

Global Instance result_ret : MRet result := fun A a => Ok a.
Global Instance result_bind : MBind result := fun A B f m =>
  match m with
  | Ok a => f a
  | Bad_any_cast => Bad_any_cast
  | Undefined_behavior => Undefined_behavior
  end.
Global Instance result_fmap : FMap result := fun A B f m =>
  match m with
  | Ok a => Ok (f a)
  | Bad_any_cast => Bad_any_cast
  | Undefined_behavior => Undefined_behavior
  end.

(** [INT_MIN], [INT_MAX] of a 32-bit [int]. *)
Definition INT_MIN : Z := - 2 ^ 31.
Definition INT_MAX : Z := 2 ^ 31 - 1.

(** [any_cast<int>] and [any_cast<string>] on a value (not a pointer):
    they throw [bad_any_cast] when the held type differs. *)
Definition any_cast_int (a : any) : result Z :=
  match a with AInt z => Ok z | _ => Bad_any_cast end.

Definition any_cast_string (a : any) : result string :=
  match a with AString s => Ok s | _ => Bad_any_cast end.

(** [a.type() == typeid(string)]. *)
Definition holds_string (a : any) : bool :=
  match a with AString _ => true | _ => false end.

(** Signed [int] addition: the sum, or undefined behaviour when it
    overflows. *)
Definition int_add (a b : Z) : result Z :=
  if (INT_MIN <=? a + b) && (a + b <=? INT_MAX) then Ok (a + b)
  else Undefined_behavior.

(** ** [std::to_string(int)]: the ["%d"] rendering *)

Definition digit_char (d : Z) : ascii := ascii_of_nat (48 + Z.to_nat d).

(** The decimal digits of [n >= 0], most significant first, in front of
    [acc]; [fuel] bounds the number of digits. *)
Fixpoint digits_aux (fuel : nat) (n : Z) (acc : string) : string :=
  match fuel with
  | O => acc
  | S fuel' =>
      let acc' := String (digit_char (n mod 10)) acc in
      if n <? 10 then acc' else digits_aux fuel' (n / 10) acc'
  end.

(** [n < 2 ^ (log2 n + 1) <= 10 ^ (log2 n + 1)] digits are enough. *)
Definition digits (n : Z) : string :=
  digits_aux (S (Z.to_nat (Z.log2 n))) n EmptyString.

Definition to_string (z : Z) : string :=
  if z <? 0 then String "-" (digits (- z)) else digits z.

(** ** js_plus ([src/test/cpp/src/main.cpp] 189-212; the samples variant,
    [src/cpp_samples_test/src/main.cpp] 182-205, differs only in taking
    its arguments by value)
<<
if (lval.type() == typeid(string) || rval.type() == typeid(string)) {
    auto lval_str = (lval.type() != typeid(string) ?
        to_string(any_cast<int>(lval)) : any_cast<string>(lval));
    auto rval_str = (rval.type() != typeid(string) ?
        to_string(any_cast<int>(rval)) : any_cast<string>(rval));
    return lval_str + rval_str;
}
return any_cast<int>(lval) + any_cast<int>(rval);
>> *)
Definition js_plus (lval rval : any) : result any :=
  if holds_string lval || holds_string rval then
    lval_str ← (if negb (holds_string lval) then to_string <$> any_cast_int lval
                else any_cast_string lval);
    rval_str ← (if negb (holds_string rval) then to_string <$> any_cast_int rval
                else any_cast_string rval);
    Ok (AString (lval_str +:+ rval_str))
  else
    a ← any_cast_int lval;
    b ← any_cast_int rval;
    AInt <$> int_add a b.

(** [std::accumulate(first, last, init, op)]: a left fold; an exception
    thrown by [op] leaves the loop. *)
Fixpoint accumulate (op : any -> any -> result any) (acc : any) (l : list any)
  : result any :=
  match l with
  | [] => Ok acc
  | x :: l' => acc' ← op acc x; accumulate op acc' l'
  end.

(** [variadic_mixedtype::plus_all]. *)
Definition plus_all (arguments : list any) : result any :=
  accumulate js_plus (AInt 0) arguments.

(** ** Closures created in a loop

    The [int]s the loops create live in a store of cells: the loop
    variable [i] is the cell [0]; [new int{...}] allocates a fresh cell.
    A [js_function] created in the loop captures [i] by value ([[i]]), by
    reference to the loop variable ([[&i]]), or by reference to a fresh
    per-iteration copy ([[&i_copy]]); its body writes the captured [int]
    to the mocked [cout]. *)
Inductive capture :=
| ByValue (i : Z)
| ByRef (cell : nat).

Inductive capture_mode :=
| CaptureValue
| CaptureRef
| CapturePerIterCopy.

Record loop_state := mk_loop_state {
  store : gmap nat Z;
  next_cell : nat;
  functions : list capture
}.

(** One iteration body: [functions.emplace_back(...)], then [++i]. *)
Definition loop_body (mode : capture_mode) (st : loop_state) : option loop_state :=
  i ← store st !! 0%nat;
  let '(σ, next, c) :=
    match mode with
    | CaptureValue => (store st, next_cell st, ByValue i)
    | CaptureRef => (store st, next_cell st, ByRef 0)
    | CapturePerIterCopy =>
        (<[next_cell st := i]> (store st), S (next_cell st), ByRef (next_cell st))
    end in
  Some (mk_loop_state (<[0%nat := i + 1]> σ) next (functions st ++ [c])).

(** [for (...; i < n; ++i) body]; [fuel] bounds the number of iterations. *)
Fixpoint run_loop (mode : capture_mode) (n : Z) (fuel : nat) (st : loop_state)
  : option loop_state :=
  match fuel with
  | O => None
  | S fuel' =>
      i ← store st !! 0%nat;
      if i <? n then loop_body mode st ≫= run_loop mode n fuel' else Some st
  end.

(** The loop of the tests, [i] starting at [0]. *)
Definition closures_in_loop (mode : capture_mode) (n : Z) : option loop_state :=
  run_loop mode n (S (Z.to_nat n)) (mk_loop_state {[0%nat := 0]} 1 []).

(** Calling one closure: [cout << i] with the captured [int]. *)
Definition call_closure (σ : gmap nat Z) (c : capture) : option string :=
  match c with
  | ByValue i => Some (to_string i)
  | ByRef cell => to_string <$> σ !! cell
  end.

(** [for_each(functions.begin(), functions.end(), [] (auto fn) { fn(); })]:
    what the calls write to [cout], in order. *)
Fixpoint for_each_call (σ : gmap nat Z) (fns : list capture) : option string :=
  match fns with
  | [] => Some EmptyString
  | c :: fns' =>
      s ← call_closure σ c;
      rest ← for_each_call σ fns';
      Some (s +:+ rest)
  end.

(** [cout.str()] after the loop and the calls. *)
Definition cout_after (mode : capture_mode) (n : Z) : option string :=
  st ← closures_in_loop mode n;
  for_each_call (store st) (functions st).

(** How the operands of [js_plus] print in its string branch: a string as
    is, an [int] through [to_string]; other held types have no rendering
    there. *)
Definition render (a : any) : option string :=
  match a with
  | AString s => Some s
  | AInt z => Some (to_string z)
  | _ => None
  end.

(** Decimal reading of a digit string, and the digit-only check. *)
Fixpoint dec_value (v : Z) (s : string) : Z :=
  match s with
  | EmptyString => v
  | String c s' => dec_value (10 * v + (Z.of_nat (nat_of_ascii c) - 48)) s'
  end.

Fixpoint all_digits (s : string) : bool :=
  match s with
  | EmptyString => true
  | String c s' =>
      (48 <=? nat_of_ascii c)%nat && (nat_of_ascii c <=? 57)%nat && all_digits s'
  end.

(** scope_chains_test of the test variant: [global_environment] is 0,
    [f_environment] is 1, [g_environment] is 2; [g_environment] then
    assigns [localVariable] and [globalVariable]. *)
Definition scope_test_heap : heap :=
  <[2%nat := mk_object (<["anotherLocalVariable" := AInt 123]> ∅) (Some 1%nat)]>
  (<[1%nat := mk_object (<["localVariable" := ABool true]> ∅) (Some 0%nat)]>
  (<[0%nat := mk_object (<["globalVariable" := AString "xyz"]> ∅) None]> ∅)).

Definition scope_test_after : option heap :=
  h1 ← subscript_assign subscript_fic 3 scope_test_heap 2 "localVariable" (ABool false);
  subscript_assign subscript_fic 3 h1 2 "globalVariable" (AString "abc").


(** ** The integer-only [plus_all]s *)





(** The sum of a list of [int]s, and whether every running sum from
    [start] stays in the [int] range (no signed overflow). *)
Definition Zsum (zs : list Z) : Z := fold_right Z.add 0 zs.

Fixpoint running_sums_in_range (start : Z) (zs : list Z) : bool :=
  match zs with
  | [] => true
  | z :: zs' =>
      (INT_MIN <=? start + z) && (start + z <=? INT_MAX) &&
      running_sums_in_range (start + z) zs'
  end.

(** The concatenation [js_plus] builds from a string accumulator. *)
Definition concat_strings (ss : list string) : string :=
  fold_right String.append EmptyString ss.

(** ** [this_::add] ([src/test/cpp/src/main.cpp] 230-237; the same in
    [src/cpp_samples_test/src/main.cpp] 223-230)
<<
return (any_cast<int>(any_cast<js_object>(this_)["a"]) +
        any_cast<int>(any_cast<js_object>(this_)["b"]) +
        any_cast<int>(arguments[0]) + any_cast<int>(arguments[1]));
>>
    [any_cast<js_object>(this_)] copies the object held by [this_]; the
    copy has the same own map and [__proto__], so reading a key through the
    copy's [operator[]] gives the value the original would give, and the
    copy (with whatever that [operator[]] inserts) is dropped. The object
    is therefore passed by its handle, and the heap after the reads is not
    returned. [arguments[i]] out of range is undefined behaviour, as is a
    lookup that does not return ([None]). *)
Definition lift_lookup (r : option any) : result any :=
  match r with Some v => Ok v | None => Undefined_behavior end.

Definition vector_at (arguments : list any) (i : nat) : result any :=
  match arguments !! i with Some v => Ok v | None => Undefined_behavior end.

Definition this_add (sub : nat -> heap -> nat -> string -> option (loc * heap))
    (fuel : nat) (h : heap) (this_ : any) (arguments : list any) : result any :=
  o ← match this_ with AObj o => Ok o | _ => Bad_any_cast end;
  a ← lift_lookup (subscript_value sub fuel h o "a") ≫= any_cast_int;
  b ← lift_lookup (subscript_value sub fuel h o "b") ≫= any_cast_int;
  x ← vector_at arguments 0 ≫= any_cast_int;
  y ← vector_at arguments 1 ≫= any_cast_int;
  s1 ← int_add a b;
  s2 ← int_add s1 x;
  AInt <$> int_add s2 y.

(** ** [js_new] ([src/test/cpp/src/main.cpp] 579-586)
<<
auto js_new(js_function_ref constructor, vector<any> arguments = {}) {
    auto o = make_js_object();
    o->__proto__ = any_cast<js_object_ref>(( *constructor)["prototype"]);
    ( *constructor)(o, arguments);
    return o;
}
>>
    [make_js_object()] allocates a fresh empty object in the heap;
    [constructor] is the handle [c] of the callable object and [body] its
    [function_body_], which gets the heap, [this] and the arguments and may
    change the heap. The [deferred_ptr]s are handles ([AObj]). *)
Definition make_js_object (h : heap) : nat * heap :=
  let o := fresh (dom h) in (o, <[o := mk_object ∅ None]> h).

Definition js_new (fuel : nat)
    (body : heap -> any -> list any -> result (any * heap))
    (h : heap) (c : nat) (arguments : list any) : result (nat * heap) :=
  let '(o, h1) := make_js_object h in
  '(l, h2) ← match subscript_fic fuel h1 c "prototype" with
             | Some r => Ok r
             | None => Undefined_behavior
             end;
  p ← match deref h2 l with Some (AObj p) => Ok p | _ => Bad_any_cast end;
  let h3 := match h2 !! o with
            | Some obj => <[o := mk_object (own obj) (Some p)]> h2
            | None => h2
            end in
  '(_, h4) ← body h3 (AObj o) arguments;
  Ok (o, h4).

(** What the loop state is after [k] iterations, per capture mode. *)
Definition loop_inv (mode : capture_mode) (k : nat) (st : loop_state) : Prop :=
  store st !! 0%nat = Some (Z.of_nat k) /\
  match mode with
  | CaptureValue => functions st = map (fun j => ByValue (Z.of_nat j)) (seq 0 k)
  | CaptureRef => functions st = replicate k (ByRef 0)
  | CapturePerIterCopy =>
      next_cell st = S k /\
      functions st = map (fun j => ByRef (S j)) (seq 0 k) /\
      (forall j, (j < k)%nat -> store st !! (S j) = Some (Z.of_nat j))
  end.

(** A step of the heap that keeps every object, its [__proto__] and every
    own property it had (own maps may only grow). *)
Definition keeps_objects (h h' : heap) : Prop :=
  forall q, match h !! q, h' !! q with
            | Some obj, Some obj' => __proto__ obj' = __proto__ obj /\ own obj ⊆ own obj'
            | None, None => True
            | _, _ => False
            end.

(** The constructor body of classes_new_test ([src/test/cpp/src/main.cpp]
    589-594): [this["x"] = 42; this["y"] = 3.14; return any{};], the
    double [3.14] written as the rational [314/100]. *)
Definition thing_body (fuel : nat) (h : heap) (this_ : any) (arguments : list any)
  : result (any * heap) :=
  match this_ with
  | AObj o =>
      match subscript_assign subscript_fic fuel h o "x" (AInt 42) with
      | Some h1 =>
          match subscript_assign subscript_fic fuel h1 o "y" (ADouble (314 # 100)) with
          | Some h2 => Ok (AEmpty, h2)
          | None => Undefined_behavior
          end
      | None => Undefined_behavior
      end
  | _ => Bad_any_cast
  end.

(** classes_new_test's heap: [Thing] is 0, its ["prototype"] object is 1,
    the functions [f] and [g] are 2 and 3. *)
Definition thing_heap : heap :=
  <[0%nat := mk_object {["prototype" := AObj 1]} None]>
  (<[1%nat := mk_object (<["f" := AObj 2]> {["g" := AObj 3]}) None]>
  (<[2%nat := mk_object ∅ None]> {[3%nat := mk_object ∅ None]})).

(** * Properties *)

(** ** Tests of the sources, replayed *)

Example proto_test_rec :
  subscript_value subscript_rec 5 proto_test_heap 0 "a" = Some (AInt 1) /\
  subscript_value subscript_rec 5 proto_test_heap 0 "b" = Some (AInt 2) /\
  subscript_value subscript_rec 5 proto_test_heap 0 "c" = Some (AInt 4) /\
  subscript_value subscript_rec 5 proto_test_heap 0 "d" = Some AEmpty.
Proof. vm_compute. repeat split. Qed.

Example proto_test_fic :
  subscript_value subscript_fic 5 proto_test_heap 0 "a" = Some (AInt 1) /\
  subscript_value subscript_fic 5 proto_test_heap 0 "b" = Some (AInt 2) /\
  subscript_value subscript_fic 5 proto_test_heap 0 "c" = Some (AInt 4) /\
  subscript_value subscript_fic 5 proto_test_heap 0 "d" = Some AEmpty.
Proof. vm_compute. repeat split. Qed.

Example closures_tests :
  cout_after CaptureValue 5 = Some "01234"%string /\
  cout_after CaptureRef 5 = Some "55555"%string /\
  cout_after CapturePerIterCopy 5 = Some "01234"%string /\
  (s1 ← cout_after CaptureValue 3; s2 ← cout_after CaptureRef 3; Some (s1 +:+ s2))
    = Some "012333"%string.
Proof. vm_compute. repeat split. Qed.

Example plus_all_tests :
  plus_all [AInt 4; AInt 8] = Ok (AInt 12) /\
  js_plus (AInt (-7)) (AString "x") = Ok (AString "-7x") /\
  js_plus (AInt INT_MAX) (AInt 1) = Undefined_behavior /\
  to_string INT_MIN = "-2147483648"%string.
Proof. vm_compute. repeat split. Qed.

(** ** Lookup along a prototype chain *)

Section Chain.
Variable h : heap.
Variable k : string.

Lemma chain_head o hs : chain h o hs -> exists hs', hs = o :: hs'.
Proof. inversion 1; eauto. Qed.

Lemma first_owner_none_absent o hs :
  chain h o hs -> first_owner h hs k = None -> absent_in h hs k.
Proof.
  induction 1 as [o obj Ho Hp | o obj p hs Ho Hp Hc IH]; simpl; rewrite Ho;
    destruct (own obj !! k) eqn:Ek; try discriminate; intros Hf.
  - constructor; [by rewrite Ho | constructor].
  - constructor; [by rewrite Ho | exact (IH Hf)].
Qed.

Lemma absent_first_owner hs : absent_in h hs k -> first_owner h hs k = None.
Proof.
  induction 1 as [|q hs' Hq _ IH]; simpl; [done|].
  destruct (h !! q) as [obj|]; [by rewrite Hq|done].
Qed.

Lemma absent_chain_value hs : absent_in h hs k -> chain_value h hs k = Some AEmpty.
Proof.
  induction 1 as [|q hs' Hq _ IH]; simpl; [done|].
  destruct (h !! q) as [obj|]; [by rewrite Hq|done].
Qed.

Lemma first_owner_some_value hs q :
  first_owner h hs k = Some q -> chain_value h hs k = deref h (q, k).
Proof.
  induction hs as [|q' hs' IH]; simpl; [discriminate|].
  destruct (h !! q') as [obj|] eqn:Hq'; [|discriminate].
  destruct (own obj !! k) as [v|] eqn:Ek; [|exact IH].
  intros [= <-]. unfold deref; simpl. by rewrite Hq', Ek.
Qed.

Lemma first_owner_in hs q : first_owner h hs k = Some q -> q ∈ hs.
Proof.
  induction hs as [|q' hs' IH]; simpl; [discriminate|].
  destruct (h !! q'); [|discriminate].
  destruct (own _ !! k); [intros [= ->]; left|intros; right; auto].
Qed.

(** [find_in_chain] stops at the first object of the chain owning [k]. *)
Lemma find_in_chain_chain o hs fuel :
  chain h o hs -> (length hs <= fuel)%nat ->
  find_in_chain fuel h o k =
    Some (match first_owner h hs k with Some q => It q | None => End end).
Proof.
  intros Hc; revert fuel.
  induction Hc as [o obj Ho Hp | o obj p hs Ho Hp Hc IH]; intros [|fuel] Hle;
    simpl in *; try lia; rewrite Ho; destruct (own obj !! k) eqn:Ek; try done.
  - by rewrite Hp.
  - rewrite Hp, (IH fuel) by lia. by destruct (first_owner h hs k).
Qed.

(** [operator[]] of the samples variant reads the first own value. *)
Lemma subscript_rec_chain o hs fuel :
  chain h o hs -> (length hs <= fuel)%nat ->
  exists l h', subscript_rec fuel h o k = Some (l, h') /\
               deref h' l = chain_value h hs k.
Proof.
  intros Hc; revert fuel.
  induction Hc as [o obj Ho Hp | o obj p hs Ho Hp Hc IH]; intros [|fuel] Hle;
    simpl in *; try lia; rewrite Ho; destruct (own obj !! k) as [v|] eqn:Ek.
  - exists (o, k), h. unfold deref; simpl. by rewrite Ho, Ek.
  - rewrite Hp. unfold map_subscript. rewrite Ho, Ek.
    eexists _, _; split; [reflexivity|].
    unfold deref; simpl. rewrite lookup_insert_eq; simpl. by rewrite lookup_insert_eq.
  - exists (o, k), h. unfold deref; simpl. by rewrite Ho, Ek.
  - rewrite Hp. apply IH. lia.
Qed.

(** [operator[]] of the test variant reads the first own value. *)
Lemma subscript_fic_chain o hs fuel :
  chain h o hs -> (length hs <= fuel)%nat ->
  exists l h', subscript_fic fuel h o k = Some (l, h') /\
               deref h' l = chain_value h hs k.
Proof.
  intros Hc Hle. unfold subscript_fic.
  rewrite (find_in_chain_chain o hs fuel Hc Hle).
  destruct (first_owner h hs k) as [q|] eqn:Hf.
  - exists (q, k), h. split; [done|]. symmetry. by apply first_owner_some_value.
  - pose proof (first_owner_none_absent o hs Hc Hf) as Ha.
    destruct (chain_head o hs Hc) as [hs' ->].
    inversion Ha as [|? ? Hk _]; subst.
    unfold map_subscript. destruct (h !! o) as [obj|] eqn:Ho; [|done].
    rewrite Hk.
    eexists _, _; split; [reflexivity|].
    rewrite (absent_chain_value _ Ha).
    unfold deref; simpl. rewrite lookup_insert_eq; simpl. by rewrite lookup_insert_eq.
Qed.

End Chain.

Lemma chain_lookup h o hs : chain h o hs -> exists obj, h !! o = Some obj.
Proof. inversion 1; eauto. Qed.

Lemma first_owner_lookup h hs k q :
  first_owner h hs k = Some q -> exists obj, h !! q = Some obj.
Proof.
  induction hs as [|q' hs' IH]; simpl; [discriminate|].
  destruct (h !! q') as [obj|] eqn:Hq'; [|discriminate].
  destruct (own obj !! k); [intros [= <-]; eauto|exact IH].
Qed.

Lemma assign_frame h l v r : r <> l.1 -> assign h l v !! r = h !! r.
Proof.
  intros Hr. unfold assign. destruct (h !! l.1); [|done].
  by rewrite lookup_insert_ne by congruence.
Qed.

Lemma assign_deref h l v :
  (exists obj, h !! l.1 = Some obj) -> deref (assign h l v) l = Some v.
Proof.
  intros [obj Hl]. unfold assign, deref. rewrite Hl, lookup_insert_eq; simpl.
  by rewrite lookup_insert_eq.
Qed.

(** ** Shadowing *)

(** Claim C2: when an object [o] and its prototype [p] both have the own
    property [k], reading [o[k]] gives [o]'s value, in both variants of
    [operator[]]. *)
Theorem own_property_shadows_prototype (h : heap) (o p : nat) (obj pobj : object)
    (k : string) (v vp : any) (fuel : nat) :
  h !! o = Some obj -> __proto__ obj = Some p -> h !! p = Some pobj ->
  own obj !! k = Some v -> own pobj !! k = Some vp -> (1 <= fuel)%nat ->
  subscript_value subscript_rec fuel h o k = Some v /\
  subscript_value subscript_fic fuel h o k = Some v.
Proof.
  intros Ho _ _ Hk _ Hf. destruct fuel as [|fuel]; [lia|].
  unfold subscript_value, subscript_fic, deref; simpl; rewrite Ho, Hk; simpl.
  by rewrite Ho, Hk.
Qed.

Lemma own_property_shadows_prototype_witness :
  subscript_value subscript_rec 1 proto_test_heap 0 "b" = Some (AInt 2) /\
  subscript_value subscript_fic 1 proto_test_heap 0 "b" = Some (AInt 2).
Proof.
  apply (own_property_shadows_prototype proto_test_heap 0 1
           (mk_object (<["a" := AInt 1]> (<["b" := AInt 2]> ∅)) (Some 1%nat))
           (mk_object (<["b" := AInt 3]> (<["c" := AInt 4]> ∅)) None)
           "b" (AInt 2) (AInt 3) 1);
    first [vm_compute; reflexivity | lia].
Defined.

(** ** Missing keys *)

(** Claim C5: on a null-terminated prototype chain none of whose objects has
    the own property [k], reading [o[k]] in either variant yields the empty
    [any] and no failure, given any recursion depth covering the chain. *)
Theorem missing_key_reads_empty (h : heap) (o : nat) (hs : list nat)
    (k : string) (fuel : nat) :
  chain h o hs -> absent_in h hs k -> (length hs <= fuel)%nat ->
  subscript_value subscript_rec fuel h o k = Some AEmpty /\
  subscript_value subscript_fic fuel h o k = Some AEmpty.
Proof.
  intros Hc Ha Hle. unfold subscript_value.
  destruct (subscript_rec_chain h k o hs fuel Hc Hle) as (l & h' & -> & Hv).
  destruct (subscript_fic_chain h k o hs fuel Hc Hle) as (l' & h'' & -> & Hv').
  by rewrite Hv, Hv', absent_chain_value.
Qed.

Lemma missing_key_reads_empty_witness :
  subscript_value subscript_rec 2 proto_test_heap 0 "d" = Some AEmpty /\
  subscript_value subscript_fic 2 proto_test_heap 0 "d" = Some AEmpty.
Proof.
  apply (missing_key_reads_empty proto_test_heap 0 [0%nat; 1%nat] "d" 2).
  - apply (chain_proto _ 0 (mk_object (<["a" := AInt 1]> (<["b" := AInt 2]> ∅)) (Some 1%nat)) 1);
      [vm_compute; reflexivity | reflexivity |].
    apply (chain_null _ 1 (mk_object (<["b" := AInt 3]> (<["c" := AInt 4]> ∅)) None));
      [vm_compute; reflexivity | reflexivity].
  - repeat (apply List.Forall_cons; [vm_compute; reflexivity|]); apply List.Forall_nil.
  - simpl; lia.
Defined.

(** Claim C8: on a null-terminated prototype chain [hs] without the own
    property [k], both variants of [operator[]] return within [length hs]
    nested calls, and the value read is the empty [any]. *)
Theorem missing_key_lookup_terminates (h : heap) (o : nat) (hs : list nat)
    (k : string) :
  chain h o hs -> absent_in h hs k ->
  (exists l h', subscript_rec (length hs) h o k = Some (l, h') /\
                deref h' l = Some AEmpty) /\
  (exists l h', subscript_fic (length hs) h o k = Some (l, h') /\
                deref h' l = Some AEmpty).
Proof.
  intros Hc Ha. rewrite <- (absent_chain_value h k hs Ha).
  split; [apply subscript_rec_chain | apply subscript_fic_chain]; auto.
Qed.

Lemma missing_key_lookup_terminates_witness :
  (exists l h', subscript_rec 2 proto_test_heap 0 "d" = Some (l, h') /\
                deref h' l = Some AEmpty) /\
  (exists l h', subscript_fic 2 proto_test_heap 0 "d" = Some (l, h') /\
                deref h' l = Some AEmpty).
Proof.
  apply (missing_key_lookup_terminates proto_test_heap 0 [0%nat; 1%nat] "d").
  - apply (chain_proto _ 0 (mk_object (<["a" := AInt 1]> (<["b" := AInt 2]> ∅)) (Some 1%nat)) 1);
      [vm_compute; reflexivity | reflexivity |].
    apply (chain_null _ 1 (mk_object (<["b" := AInt 3]> (<["c" := AInt 4]> ∅)) None));
      [vm_compute; reflexivity | reflexivity].
  - repeat (apply List.Forall_cons; [vm_compute; reflexivity|]); apply List.Forall_nil.
Defined.

(** Claim C9: in the test variant, reading a key that no object of the
    (null-terminated) chain owns inserts it on the receiver: afterwards the
    receiver's own map holds [k] with the empty [any]. *)
Theorem fic_missing_key_inserts_on_receiver (h : heap) (o : nat) (hs : list nat)
    (k : string) (fuel : nat) :
  chain h o hs -> absent_in h hs k -> (length hs <= fuel)%nat ->
  exists obj h' obj',
    h !! o = Some obj /\ own obj !! k = None /\
    subscript_fic fuel h o k = Some ((o, k), h') /\
    h' !! o = Some obj' /\ own obj' !! k = Some AEmpty.
Proof.
  intros Hc Ha Hle. unfold subscript_fic.
  rewrite (find_in_chain_chain h k o hs fuel Hc Hle), (absent_first_owner h k hs Ha).
  destruct (chain_head h o hs Hc) as [hs' ->].
  inversion Ha as [|? ? Hk _]; subst.
  unfold map_subscript. destruct (h !! o) as [obj|] eqn:Ho; [|done].
  rewrite Hk. eexists _, _, _. split; [done|]. split; [done|].
  split; [reflexivity|]. rewrite lookup_insert_eq. split; [reflexivity|].
  simpl. by rewrite lookup_insert_eq.
Qed.

Lemma fic_missing_key_inserts_on_receiver_witness :
  exists obj h' obj',
    proto_test_heap !! 0%nat = Some obj /\ own obj !! "d" = None /\
    subscript_fic 2 proto_test_heap 0 "d" = Some ((0%nat, "d"), h') /\
    h' !! 0%nat = Some obj' /\ own obj' !! "d" = Some AEmpty.
Proof.
  apply (fic_missing_key_inserts_on_receiver proto_test_heap 0 [0%nat; 1%nat] "d" 2).
  - apply (chain_proto _ 0 (mk_object (<["a" := AInt 1]> (<["b" := AInt 2]> ∅)) (Some 1%nat)) 1);
      [vm_compute; reflexivity | reflexivity |].
    apply (chain_null _ 1 (mk_object (<["b" := AInt 3]> (<["c" := AInt 4]> ∅)) None));
      [vm_compute; reflexivity | reflexivity].
  - repeat (apply List.Forall_cons; [vm_compute; reflexivity|]); apply List.Forall_nil.
  - simpl; lia.
Defined.

(** ** The two variants agree on reads *)

(** Claim C10: on a null-terminated prototype chain, the samples variant and
    the test variant of [operator[]] read the same value for every key. *)
Theorem subscript_variants_same_value (h : heap) (o : nat) (hs : list nat)
    (k : string) (fuel : nat) :
  chain h o hs -> (length hs <= fuel)%nat ->
  subscript_value subscript_rec fuel h o k = subscript_value subscript_fic fuel h o k.
Proof.
  intros Hc Hle. unfold subscript_value.
  destruct (subscript_rec_chain h k o hs fuel Hc Hle) as (l & h' & -> & Hv).
  destruct (subscript_fic_chain h k o hs fuel Hc Hle) as (l' & h'' & -> & Hv').
  by rewrite Hv, Hv'.
Qed.

Lemma subscript_variants_same_value_witness :
  subscript_value subscript_rec 2 proto_test_heap 0 "c" =
  subscript_value subscript_fic 2 proto_test_heap 0 "c".
Proof.
  apply (subscript_variants_same_value proto_test_heap 0 [0%nat; 1%nat] "c" 2).
  - apply (chain_proto _ 0 (mk_object (<["a" := AInt 1]> (<["b" := AInt 2]> ∅)) (Some 1%nat)) 1);
      [vm_compute; reflexivity | reflexivity |].
    apply (chain_null _ 1 (mk_object (<["b" := AInt 3]> (<["c" := AInt 4]> ∅)) None));
      [vm_compute; reflexivity | reflexivity].
  - simpl; lia.
Defined.

(** ** Assignment through [operator[]] *)

Example scope_chains_test_fic :
  (h ← scope_test_after; deref h (1%nat, "localVariable")) = Some (ABool false) /\
  (h ← scope_test_after; deref h (0%nat, "globalVariable")) = Some (AString "abc") /\
  (h ← scope_test_after; deref h (2%nat, "localVariable")) = None /\
  (h ← scope_test_after; subscript_value subscript_fic 3 h 0 "anotherLocalVariable")
    = Some AEmpty.
Proof. vm_compute. repeat split. Qed.

(** Claim C1, counterexample: assigning [o["c"]] on the
    prototypal_inheritance_test objects, where only [o_proto] has ["c"],
    leaves [o] without an own ["c"] and overwrites [o_proto]'s. *)
Lemma assign_through_child_mutates_prototype :
  ~ (forall (fuel : nat) (h : heap) (o : nat) (k : string) (v : any) (h' : heap),
       subscript_assign subscript_fic fuel h o k v = Some h' ->
       (exists obj', h' !! o = Some obj' /\ own obj' !! k = Some v) /\
       (forall q, q <> o -> h' !! q = h !! q)).
Proof.
  intros H.
  destruct (H 2%nat proto_test_heap 0%nat "c" (AInt 5)
              (assign proto_test_heap (1%nat, "c") (AInt 5)))
    as [[obj' [Ho Hk]] Hframe].
  - vm_compute. reflexivity.
  - specialize (Hframe 1%nat ltac:(lia)). vm_compute in Hframe. discriminate.
Qed.

(** Claim C1, as the code has it: in the test variant, [o[k] = v] writes
    [v] into the first object of [o]'s chain that owns [k] (the receiver
    when it owns [k]), creating the own property on the receiver only when
    no object of the chain owns [k]; every other object is unchanged. *)
Theorem assign_writes_nearest_owner (h : heap) (o : nat) (hs : list nat)
    (k : string) (v : any) (fuel : nat) :
  chain h o hs -> (length hs <= fuel)%nat ->
  let q := default o (first_owner h hs k) in
  q ∈ hs /\
  subscript_assign subscript_fic fuel h o k v = Some (assign h (q, k) v) /\
  deref (assign h (q, k) v) (q, k) = Some v /\
  (forall r, r <> q -> assign h (q, k) v !! r = h !! r).
Proof.
  intros Hc Hle q.
  assert (Hq : q ∈ hs /\ exists obj, h !! q = Some obj).
  { subst q. destruct (first_owner h hs k) as [q|] eqn:Hf; simpl.
    - split; [by eapply first_owner_in | by eapply first_owner_lookup].
    - destruct (chain_head h o hs Hc) as [hs' ->].
      split; [left | by eapply chain_lookup]. }
  destruct Hq as [Hin Hlk].
  split; [done|]. split; [|split; [by apply assign_deref | intros r Hr; by apply assign_frame]].
  unfold subscript_assign, subscript_fic.
  rewrite (find_in_chain_chain h k o hs fuel Hc Hle). subst q.
  destruct (first_owner h hs k) as [q|] eqn:Hf; simpl; [done|].
  pose proof (first_owner_none_absent h k o hs Hc Hf) as Ha.
  destruct (chain_head h o hs Hc) as [hs' ->].
  inversion Ha as [|? ? Hk _]; subst.
  unfold map_subscript. destruct (h !! o) as [obj|] eqn:Ho; [|done].
  rewrite Hk. f_equal. unfold assign; simpl.
  rewrite lookup_insert_eq, Ho; simpl.
  by rewrite insert_insert_eq, insert_insert_eq.
Qed.

Lemma assign_writes_nearest_owner_witness :
  let q := default 0%nat (first_owner proto_test_heap [0%nat; 1%nat] "c") in
  q ∈ [0%nat; 1%nat] /\
  subscript_assign subscript_fic 2 proto_test_heap 0 "c" (AInt 5) =
    Some (assign proto_test_heap (q, "c") (AInt 5)) /\
  deref (assign proto_test_heap (q, "c") (AInt 5)) (q, "c") = Some (AInt 5) /\
  (forall r, r <> q -> assign proto_test_heap (q, "c") (AInt 5) !! r = proto_test_heap !! r).
Proof.
  apply (assign_writes_nearest_owner proto_test_heap 0 [0%nat; 1%nat] "c" (AInt 5) 2).
  - apply (chain_proto _ 0 (mk_object (<["a" := AInt 1]> (<["b" := AInt 2]> ∅)) (Some 1%nat)) 1);
      [vm_compute; reflexivity | reflexivity |].
    apply (chain_null _ 1 (mk_object (<["b" := AInt 3]> (<["c" := AInt 4]> ∅)) None));
      [vm_compute; reflexivity | reflexivity].
  - simpl; lia.
Defined.

(** ** js_plus and plus_all *)

(** Claim C3: folding [4, 8, "!", 15, 16, 23, 42] with [js_plus] from the
    seed [int 0] gives ["12!15162342"]; the first two operands are summed
    to [12] before ["!"] turns the fold into concatenation. *)
Theorem plus_all_mixedtype :
  accumulate js_plus (AInt 0) [AInt 4; AInt 8] = Ok (AInt 12) /\
  accumulate js_plus (AInt 0) [AInt 4; AInt 8; AString "!"] = Ok (AString "12!") /\
  plus_all [AInt 4; AInt 8; AString "!"; AInt 15; AInt 16; AInt 23; AInt 42]
    = Ok (AString "12!15162342").
Proof. vm_compute. repeat split. Qed.

Lemma string_app_cons (c : ascii) (s1 s2 : string) :
  String c s1 +:+ s2 = String c (s1 +:+ s2).
Proof. reflexivity. Qed.

Lemma string_app_assoc (s1 s2 s3 : string) :
  (s1 +:+ s2) +:+ s3 = s1 +:+ (s2 +:+ s3).
Proof.
  induction s1 as [|c s1 IH]; [reflexivity|].
  rewrite !string_app_cons. f_equal. exact IH.
Qed.

Lemma string_app_nil_r (s : string) : s +:+ EmptyString = s.
Proof.
  induction s as [|c s IH]; [reflexivity|].
  rewrite string_app_cons. f_equal. exact IH.
Qed.

Lemma dec_value_app (v : Z) (s1 s2 : string) :
  dec_value v (s1 +:+ s2) = dec_value (dec_value v s1) s2.
Proof.
  revert v. induction s1 as [|c s1 IH]; intros v; [reflexivity|].
  rewrite string_app_cons. simpl. apply IH.
Qed.

Lemma all_digits_app (s1 s2 : string) :
  all_digits (s1 +:+ s2) = all_digits s1 && all_digits s2.
Proof.
  induction s1 as [|c s1 IH]; [reflexivity|].
  rewrite string_app_cons. simpl. rewrite IH. by rewrite !andb_assoc.
Qed.

Lemma digit_char_code (d : Z) :
  0 <= d < 10 -> nat_of_ascii (digit_char d) = (48 + Z.to_nat d)%nat.
Proof. intros Hd. unfold digit_char. apply nat_ascii_embedding. lia. Qed.

Lemma single_digit_spec (d : Z) (acc : string) :
  0 <= d < 10 ->
  String (digit_char d) acc = String (digit_char d) EmptyString +:+ acc /\
  String (digit_char d) EmptyString <> EmptyString /\
  all_digits (String (digit_char d) EmptyString) = true /\
  dec_value 0 (String (digit_char d) EmptyString) = d.
Proof.
  intros Hd. split; [reflexivity|]. split; [discriminate|].
  cbn [all_digits dec_value]. rewrite digit_char_code by lia. split; [|lia].
  rewrite andb_true_r. apply andb_true_intro; split; apply Nat.leb_le; lia.
Qed.

Lemma digits_aux_spec (fuel : nat) (n : Z) (acc : string) :
  0 <= n < 10 ^ Z.of_nat (S fuel) ->
  exists ds, digits_aux (S fuel) n acc = ds +:+ acc /\ ds <> EmptyString /\
             all_digits ds = true /\ dec_value 0 ds = n.
Proof.
  revert n acc. induction fuel as [|fuel IH]; intros n acc Hn.
  - change (Z.of_nat 1) with 1 in Hn. rewrite Z.pow_1_r in Hn.
    cbn [digits_aux]. destruct (Z.ltb_spec n 10); [|lia].
    exists (String (digit_char (n mod 10)) EmptyString).
    rewrite Z.mod_small by lia. by apply single_digit_spec.
  - cbn [digits_aux]. destruct (Z.ltb_spec n 10).
    + exists (String (digit_char (n mod 10)) EmptyString).
      rewrite Z.mod_small by lia. by apply single_digit_spec; lia.
    + pose proof (Z.mod_pos_bound n 10 ltac:(lia)) as Hm.
      destruct (single_digit_spec (n mod 10) EmptyString Hm) as (_ & _ & Hdig1 & Hval1).
      destruct (IH (n / 10) (String (digit_char (n mod 10)) acc))
        as (ds & Hds & Hne & Hdig & Hval).
      { rewrite Nat2Z.inj_succ, Z.pow_succ_r in Hn by lia.
        split; [apply Z.div_pos; lia|]. apply Z.div_lt_upper_bound; lia. }
      exists (ds +:+ String (digit_char (n mod 10)) EmptyString).
      cbn [digits_aux] in Hds. rewrite Hds, string_app_assoc. split; [reflexivity|].
      split.
      { destruct ds; [done|]. rewrite string_app_cons. discriminate. }
      rewrite all_digits_app, dec_value_app, Hdig, Hdig1, Hval. split; [done|].
      cbn [dec_value]. rewrite digit_char_code by lia.
      pose proof (Z.div_mod n 10 ltac:(lia)). lia.
Qed.

(** [to_string] writes an optional minus sign and then the decimal
    digits of the absolute value: no exponent, no decimal point. *)
Lemma to_string_decimal (z : Z) :
  exists ds, to_string z = (if z <? 0 then "-" else "") +:+ ds /\
             ds <> EmptyString /\ all_digits ds = true /\ dec_value 0 ds = Z.abs z.
Proof.
  assert (Hd : forall n, 0 <= n ->
    exists ds, digits n = ds /\ ds <> EmptyString /\ all_digits ds = true /\
               dec_value 0 ds = n).
  { intros n Hn. unfold digits.
    destruct (digits_aux_spec (Z.to_nat (Z.log2 n)) n EmptyString) as (ds & Hds & H).
    - split; [done|]. rewrite Nat2Z.inj_succ, Z2Nat.id by apply Z.log2_nonneg.
      destruct (Z.eq_dec n 0) as [->|Hn0]; [simpl; lia|].
      destruct (Z.log2_spec n) as [_ Hlt]; [lia|].
      eapply Z.lt_le_trans; [exact Hlt|]. apply Z.pow_le_mono_l. lia.
    - exists ds. rewrite Hds. by rewrite string_app_nil_r. }
  unfold to_string. destruct (Z.ltb_spec z 0) as [Hz|Hz].
  - destruct (Hd (- z)) as (ds & Hds & Hs); [lia|]. exists ds. rewrite Hds.
    split; [reflexivity|]. rewrite Z.abs_neq by lia. exact Hs.
  - destruct (Hd z) as (ds & Hds & Hs); [lia|]. exists ds. rewrite Hds.
    split; [reflexivity|]. rewrite Z.abs_eq by lia. exact Hs.
Qed.

(** Claim C4, counterexample: a [double] operand is a number, but
    [js_plus] casts every non-string operand with [any_cast<int>], so it
    throws [bad_any_cast] instead of concatenating or summing. *)
Lemma js_plus_double_operand_throws :
  (forall s, js_plus (AString "x") (ADouble (3 # 2)) <> Ok (AString s)) /\
  (forall a, js_plus (ADouble (1 # 1)) (ADouble (2 # 1)) <> Ok a).
Proof. split; intros ? H; vm_compute in H; discriminate. Qed.

(** Claim C4, as the code has it: when either operand holds a [string],
    strings pass through, [int]s are rendered by [to_string] (an optional
    minus sign and the decimal digits, no exponent, no decimal point) and
    the two are concatenated, any other held type throwing
    [bad_any_cast]; otherwise both operands must hold [int] (else
    [bad_any_cast]) and the result is their [int] sum, signed overflow
    being undefined behaviour. *)
Theorem js_plus_int_string_coercion (lval rval : any) :
  js_plus lval rval =
    (if holds_string lval || holds_string rval then
       match render lval, render rval with
       | Some ls, Some rs => Ok (AString (ls +:+ rs))
       | _, _ => Bad_any_cast
       end
     else
       match lval, rval with
       | AInt a, AInt b =>
           if (INT_MIN <=? a + b) && (a + b <=? INT_MAX) then Ok (AInt (a + b))
           else Undefined_behavior
       | _, _ => Bad_any_cast
       end) /\
  (forall z, exists ds,
     render (AInt z) = Some ((if z <? 0 then "-" else "") +:+ ds) /\
     ds <> EmptyString /\ all_digits ds = true /\ dec_value 0 ds = Z.abs z).
Proof.
  split.
  - destruct lval, rval; try reflexivity.
    unfold js_plus, int_add; simpl.
    by destruct ((INT_MIN <=? z + z0) && (z + z0 <=? INT_MAX)).
  - intros z. destruct (to_string_decimal z) as (ds & Hs & H).
    exists ds. split; [simpl; by rewrite Hs | exact H].
Qed.

(** ** Closures in a loop *)

(** Claim C6: the five closures [[i]] created in iterations [0..4] of
    closures_in_loop_test hold the snapshots [0..4]; the loop variable
    ends at [5], and called in creation order they print [0,1,2,3,4]
    whatever the store holds when they are called. *)
Theorem closures_by_value_snapshot :
  exists st, closures_in_loop CaptureValue 5 = Some st /\
    functions st = map ByValue [0; 1; 2; 3; 4] /\
    store st !! 0%nat = Some 5 /\
    (forall σ : gmap nat Z, for_each_call σ (functions st) = Some "01234"%string) /\
    cout_after CaptureValue 5 = Some "01234"%string.
Proof.
  eexists. split; [vm_compute; reflexivity|].
  split; [reflexivity|]. split; [vm_compute; reflexivity|].
  split; [|vm_compute; reflexivity].
  intros σ. reflexivity.
Qed.

(** ** The integer-only [plus_all]s *)


Lemma int_add_in_range (a b : Z) :
  (INT_MIN <=? a + b) && (a + b <=? INT_MAX) = true -> int_add a b = Ok (a + b).
Proof. intros H. unfold int_add. by rewrite H. Qed.







(** ** [variadic_mixedtype::plus_all] *)


Lemma accumulate_js_plus_string (s : string) (l : list any) :
  accumulate js_plus (AString s) l =
    match mapM render l with
    | Some rs => Ok (AString (s +:+ concat_strings rs))
    | None => Bad_any_cast
    end.
Proof.
  revert s. induction l as [|a l IH]; intros s.
  - simpl. by rewrite string_app_nil_r.
  - assert (Ha : js_plus (AString s) a =
                 match render a with
                 | Some r => Ok (AString (s +:+ r))
                 | None => Bad_any_cast
                 end) by (destruct a; reflexivity).
    simpl. rewrite Ha. destruct (render a) as [r|]; simpl; [|reflexivity].
    rewrite IH. destruct (mapM render l); simpl; [|reflexivity].
    by rewrite string_app_assoc.
Qed.



(** Once the accumulator of [variadic_mixedtype::plus_all] is a string,
    every further argument is rendered ([int]s by [to_string]) and
    appended; an argument holding neither [int] nor [string] throws
    [bad_any_cast]. *)
Theorem mixedtype_accumulate_after_string (s : string) (l : list any) :
  accumulate js_plus (AString s) l =
    match mapM render l with
    | Some rs => Ok (AString (s +:+ concat_strings rs))
    | None => Bad_any_cast
    end.
Proof. apply accumulate_js_plus_string. Qed.

(** [variadic_mixedtype::plus_all] on [int]s (no overflow), then a string
    [s], then [rest]: the [int]s are summed, the sum is rendered in front
    of [s], and [rest] is rendered and appended. *)
Theorem mixedtype_plus_all_shape (zs : list Z) (s : string) (rest : list any) :
  running_sums_in_range 0 zs = true ->
  plus_all (map AInt zs ++ AString s :: rest) =
    match mapM render rest with
    | Some rs => Ok (AString (to_string (Zsum zs) +:+ s +:+ concat_strings rs))
    | None => Bad_any_cast
    end.
Proof.
  intros Hr. unfold plus_all.
  assert (Hp : forall acc (zs : list Z) l, running_sums_in_range acc zs = true ->
            accumulate js_plus (AInt acc) (map AInt zs ++ l) =
            accumulate js_plus (AInt (acc + Zsum zs)) l).
  { intros acc zs' l. revert acc. induction zs' as [|z zs' IH]; intros acc Hr'; simpl in *.
    - by rewrite Z.add_0_r.
    - apply andb_prop in Hr' as [Hz Hr'].
      change (accumulate js_plus (AInt acc) (AInt z :: map AInt zs' ++ l)) with
        (acc' ← js_plus (AInt acc) (AInt z); accumulate js_plus acc' (map AInt zs' ++ l)).
      assert (Hj : js_plus (AInt acc) (AInt z) = AInt <$> int_add acc z) by reflexivity.
      rewrite Hj, (int_add_in_range _ _ Hz). simpl. rewrite IH by exact Hr'.
      do 2 f_equal. lia. }
  rewrite (Hp 0 zs _ Hr). simpl.
  rewrite accumulate_js_plus_string. destruct (mapM render rest); [|reflexivity].
  by rewrite string_app_assoc.
Qed.

Lemma mixedtype_plus_all_shape_witness :
  plus_all (map AInt [4; 8] ++ AString "!" :: [AInt 15; AInt 16; AInt 23; AInt 42]) =
    match mapM render [AInt 15; AInt 16; AInt 23; AInt 42] with
    | Some rs => Ok (AString (to_string (Zsum [4; 8]) +:+ "!" +:+ concat_strings rs))
    | None => Bad_any_cast
    end.
Proof. apply (mixedtype_plus_all_shape [4; 8]). reflexivity. Defined.

(** ** Closures created in a loop, for any bound *)

Lemma loop_body_inv (mode : capture_mode) (k : nat) (st : loop_state) :
  loop_inv mode k st ->
  exists st', loop_body mode st = Some st' /\ loop_inv mode (S k) st'.
Proof.
  intros [H0 Hm]. unfold loop_body. rewrite H0. simpl.
  destruct mode; cbn [store functions next_cell]; eexists; (split; [reflexivity|]);
    unfold loop_inv; cbn [store functions next_cell].
  - rewrite lookup_insert_eq. split; [f_equal; lia|].
    rewrite Hm, seq_S, map_app. reflexivity.
  - rewrite lookup_insert_eq. split; [f_equal; lia|].
    rewrite Hm, replicate_S_end. reflexivity.
  - destruct Hm as (Hn & Hf & Hc). rewrite lookup_insert_eq.
    split; [f_equal; lia|]. split; [by rewrite Hn|]. split.
    + rewrite Hf, Hn, seq_S, map_app. reflexivity.
    + intros j Hj. rewrite lookup_insert_ne by done. rewrite Hn.
      destruct (decide (j = k)) as [->|Hjk].
      * by rewrite lookup_insert_eq.
      * rewrite lookup_insert_ne by congruence. apply Hc. lia.
Qed.

Lemma run_loop_inv (mode : capture_mode) (n : Z) (d k : nat) (st : loop_state) :
  loop_inv mode k st -> (k + d = Z.to_nat n)%nat ->
  exists st', run_loop mode n (S d) st = Some st' /\ loop_inv mode (Z.to_nat n) st'.
Proof.
  revert k st. induction d as [|d IH]; intros k st Hinv Hkd; simpl;
    destruct Hinv as [H0 Hm] eqn:Hi; rewrite H0; simpl.
  - destruct (Z.ltb_spec (Z.of_nat k) n); [lia|].
    exists st. split; [done|]. replace (Z.to_nat n) with k by lia. exact Hinv.
  - destruct (Z.ltb_spec (Z.of_nat k) n); [|lia].
    destruct (loop_body_inv mode k st Hinv) as (st' & -> & Hinv'). simpl.
    apply (IH (S k)); [exact Hinv' | lia].
Qed.

Lemma closures_in_loop_inv (mode : capture_mode) (n : Z) :
  exists st, closures_in_loop mode n = Some st /\ loop_inv mode (Z.to_nat n) st.
Proof.
  apply (run_loop_inv mode n (Z.to_nat n) 0); [|lia].
  unfold loop_inv; simpl. split; [reflexivity|].
  destruct mode; [reflexivity | reflexivity |].
  split; [reflexivity|]. split; [reflexivity|]. intros j Hj; lia.
Qed.

Lemma for_each_call_by_value (σ : gmap nat Z) (l : list nat) :
  for_each_call σ (map (fun j => ByValue (Z.of_nat j)) l) =
    Some (concat_strings (map (fun j => to_string (Z.of_nat j)) l)).
Proof. induction l as [|j l IH]; [reflexivity|]. simpl. by rewrite IH. Qed.

Lemma for_each_call_shared_cell (σ : gmap nat Z) (v : Z) (k : nat) :
  σ !! 0%nat = Some v ->
  for_each_call σ (replicate k (ByRef 0)) = Some (concat_strings (replicate k (to_string v))).
Proof.
  intros Hv. induction k as [|k IH]; [reflexivity|]. simpl. rewrite IH. simpl.
  unfold call_closure. by rewrite Hv.
Qed.

Lemma for_each_call_fresh_cells (σ : gmap nat Z) (l : list nat) :
  (forall j, j ∈ l -> σ !! (S j) = Some (Z.of_nat j)) ->
  for_each_call σ (map (fun j => ByRef (S j)) l) =
    Some (concat_strings (map (fun j => to_string (Z.of_nat j)) l)).
Proof.
  induction l as [|j l IH]; intros Hc; [reflexivity|]. simpl.
  rewrite IH by (intros i Hi; apply Hc; by right).
  unfold call_closure. rewrite (Hc j) by by left. reflexivity.
Qed.

(** closures_in_loop_test for any bound [n]: closures capturing the loop
    variable by value print [0, 1, ..., n-1] when called in order. *)
Theorem closures_by_value_print_sequence (n : Z) :
  cout_after CaptureValue n =
    Some (concat_strings (map (fun j => to_string (Z.of_nat j)) (seq 0 (Z.to_nat n)))).
Proof.
  unfold cout_after. destruct (closures_in_loop_inv CaptureValue n) as (st & -> & _ & Hf).
  simpl. rewrite Hf. apply for_each_call_by_value.
Qed.

(** closures_byref_in_loop_test for any bound [n]: closures capturing a
    reference to the one loop variable all print its final value [n],
    [n] times. *)
Theorem closures_by_ref_print_final (n : Z) :
  cout_after CaptureRef n = Some (concat_strings (replicate (Z.to_nat n) (to_string n))).
Proof.
  unfold cout_after. destruct (closures_in_loop_inv CaptureRef n) as (st & -> & H0 & Hf).
  simpl. rewrite Hf, (for_each_call_shared_cell _ _ _ H0).
  destruct (Z.le_gt_cases 0 n) as [Hn|Hn].
  - by rewrite Z2Nat.id by exact Hn.
  - by replace (Z.to_nat n) with 0%nat by lia.
Qed.

(** closures_peritercopy_in_loop for any bound [n]: capturing a reference
    to a fresh per-iteration copy prints what capturing by value prints. *)
Theorem closures_per_iteration_copy_as_by_value (n : Z) :
  cout_after CapturePerIterCopy n = cout_after CaptureValue n.
Proof.
  unfold cout_after.
  destruct (closures_in_loop_inv CapturePerIterCopy n) as (st & -> & _ & _ & Hf & Hc).
  destruct (closures_in_loop_inv CaptureValue n) as (st' & -> & _ & Hf').
  simpl. rewrite Hf, Hf', for_each_call_by_value.
  apply for_each_call_fresh_cells. intros j Hj. apply Hc.
  apply elem_of_seq in Hj. lia.
Qed.

(** ** More on [operator[]] along a chain *)

Lemma chain_last_root (h : heap) (o : nat) (hs : list nat) :
  chain h o hs ->
  exists r obj, last hs = Some r /\ h !! r = Some obj /\ __proto__ obj = None.
Proof.
  induction 1 as [o obj Ho Hp | o obj p hs Ho Hp Hc IH]; [by exists o, obj|].
  destruct IH as (r & robj & Hl & Hr & Hrp). exists r, robj. split; [|done].
  destruct (chain_head h p hs Hc) as [hs' ->]. exact Hl.
Qed.

(** Where the samples variant's [operator[]] ends: at the first owner of
    [k], or else at the root of the chain, where an empty [any] is
    inserted. *)
Lemma subscript_rec_loc (h : heap) (k : string) (o : nat) (hs : list nat) (fuel : nat) :
  chain h o hs -> (length hs <= fuel)%nat ->
  match first_owner h hs k with
  | Some q => subscript_rec fuel h o k = Some ((q, k), h)
  | None => exists r obj, last hs = Some r /\ h !! r = Some obj /\
      __proto__ obj = None /\ own obj !! k = None /\
      subscript_rec fuel h o k =
        Some ((r, k), <[r := mk_object (<[k := AEmpty]> (own obj)) None]> h)
  end.
Proof.
  intros Hc; revert fuel.
  induction Hc as [o obj Ho Hp | o obj p hs Ho Hp Hc IH]; intros [|fuel] Hle;
    simpl in *; try lia; rewrite Ho; destruct (own obj !! k) as [v|] eqn:Ek;
    try reflexivity.
  - rewrite Hp. unfold map_subscript. rewrite Ho, Ek, Hp.
    exists o, obj. by repeat split.
  - rewrite Hp. specialize (IH fuel ltac:(lia)).
    destruct (first_owner h hs k) as [q|]; [exact IH|].
    destruct IH as (r & robj & Hl & Hr & Hrp & Hk & Hs). exists r, robj.
    split; [|done]. destruct (chain_head h p hs Hc) as [hs' ->]. exact Hl.
Qed.

Lemma assign_after_insert_empty (h : heap) (r : nat) (obj : object) (k : string) (v : any) :
  h !! r = Some obj ->
  assign (<[r := mk_object (<[k := AEmpty]> (own obj)) (__proto__ obj)]> h) (r, k) v =
  assign h (r, k) v.
Proof.
  intros Hr. unfold assign; simpl. rewrite lookup_insert_eq, Hr; simpl.
  by rewrite insert_insert_eq, insert_insert_eq.
Qed.

Lemma rec_assign_loc (h : heap) (o : nat) (hs : list nat) (k : string) (v : any) (fuel : nat) :
  chain h o hs -> (length hs <= fuel)%nat ->
  exists r, last hs = Some r /\
    subscript_assign subscript_rec fuel h o k v =
      Some (assign h (default r (first_owner h hs k), k) v).
Proof.
  intros Hc Hle. destruct (chain_last_root h o hs Hc) as (r & robj & Hl & Hr & Hrp).
  exists r. split; [exact Hl|]. unfold subscript_assign.
  pose proof (subscript_rec_loc h k o hs fuel Hc Hle) as Hloc.
  destruct (first_owner h hs k) as [q|]; simpl.
  - by rewrite Hloc.
  - destruct Hloc as (r' & obj & Hl' & Hr' & Hp' & Hk & ->).
    rewrite Hl in Hl'. injection Hl' as <-. f_equal.
    rewrite <- Hp'. by apply assign_after_insert_empty.
Qed.

(** In the samples variant, [o[k] = v] writes into the first object of the
    chain owning [k]; when none owns [k] it writes into the root of the
    chain (the last prototype), not into the receiver [o]. *)
Theorem rec_assign_writes_owner_or_root (h : heap) (o : nat) (hs : list nat)
    (k : string) (v : any) (fuel : nat) :
  chain h o hs -> (length hs <= fuel)%nat ->
  exists r, last hs = Some r /\
    subscript_assign subscript_rec fuel h o k v =
      Some (assign h (default r (first_owner h hs k), k) v).
Proof. exact (rec_assign_loc h o hs k v fuel). Qed.

Lemma rec_assign_writes_owner_or_root_witness :
  exists r, last [0%nat; 1%nat] = Some r /\
    subscript_assign subscript_rec 2 proto_test_heap 0 "d" (AInt 5) =
      Some (assign proto_test_heap
              (default r (first_owner proto_test_heap [0%nat; 1%nat] "d"), "d") (AInt 5)).
Proof.
  apply (rec_assign_writes_owner_or_root proto_test_heap 0 [0%nat; 1%nat] "d" (AInt 5) 2).
  - apply (chain_proto _ 0 (mk_object (<["a" := AInt 1]> (<["b" := AInt 2]> ∅)) (Some 1%nat)) 1);
      [vm_compute; reflexivity | reflexivity |].
    apply (chain_null _ 1 (mk_object (<["b" := AInt 3]> (<["c" := AInt 4]> ∅)) None));
      [vm_compute; reflexivity | reflexivity].
  - simpl; lia.
Defined.

(** In the samples variant, reading a key no object of the chain owns
    inserts it, holding the empty [any], into the root of the chain; the
    reference returned is that new slot, and nothing else changes. *)
Theorem rec_missing_key_inserts_on_root (h : heap) (o : nat) (hs : list nat)
    (k : string) (fuel : nat) :
  chain h o hs -> absent_in h hs k -> (length hs <= fuel)%nat ->
  exists r obj, last hs = Some r /\ h !! r = Some obj /\
    subscript_rec fuel h o k =
      Some ((r, k), <[r := mk_object (<[k := AEmpty]> (own obj)) None]> h).
Proof.
  intros Hc Ha Hle. pose proof (subscript_rec_loc h k o hs fuel Hc Hle) as Hloc.
  rewrite (absent_first_owner h k hs Ha) in Hloc.
  destruct Hloc as (r & obj & Hl & Hr & _ & _ & Hs). by exists r, obj.
Qed.

Lemma rec_missing_key_inserts_on_root_witness :
  exists r obj, last [0%nat; 1%nat] = Some r /\ proto_test_heap !! r = Some obj /\
    subscript_rec 2 proto_test_heap 0 "d" =
      Some ((r, "d"), <[r := mk_object (<["d" := AEmpty]> (own obj)) None]> proto_test_heap).
Proof.
  apply (rec_missing_key_inserts_on_root proto_test_heap 0 [0%nat; 1%nat] "d" 2).
  - apply (chain_proto _ 0 (mk_object (<["a" := AInt 1]> (<["b" := AInt 2]> ∅)) (Some 1%nat)) 1);
      [vm_compute; reflexivity | reflexivity |].
    apply (chain_null _ 1 (mk_object (<["b" := AInt 3]> (<["c" := AInt 4]> ∅)) None));
      [vm_compute; reflexivity | reflexivity].
  - repeat (apply List.Forall_cons; [vm_compute; reflexivity|]); apply List.Forall_nil.
  - simpl; lia.
Defined.

(** ** Writes and reads keep the heap's shape *)

Lemma assign_lookup_proto (h : heap) (l : loc) (v : any) (q : nat) (obj : object) :
  h !! q = Some obj ->
  exists obj', assign h l v !! q = Some obj' /\ __proto__ obj' = __proto__ obj.
Proof.
  intros Hq. destruct (decide (q = l.1)) as [->|Hne].
  - unfold assign. rewrite Hq, lookup_insert_eq. by eexists.
  - rewrite assign_frame by done. by exists obj.
Qed.

Lemma chain_assign (h : heap) (l : loc) (v : any) (o : nat) (hs : list nat) :
  chain h o hs -> chain (assign h l v) o hs.
Proof.
  induction 1 as [o obj Ho Hp | o obj p hs Ho Hp Hc IH].
  - destruct (assign_lookup_proto h l v o obj Ho) as (obj' & Ho' & Hp').
    apply (chain_null _ o obj'); congruence.
  - destruct (assign_lookup_proto h l v o obj Ho) as (obj' & Ho' & Hp').
    apply (chain_proto _ o obj' p); congruence.
Qed.

Lemma chain_value_assign_ne (h : heap) (hs : list nat) (q : nat) (k k' : string) (v : any) :
  k' <> k -> chain_value (assign h (q, k) v) hs k' = chain_value h hs k'.
Proof.
  intros Hk. induction hs as [|q' hs IH]; simpl; [done|].
  destruct (decide (q' = q)) as [->|Hne].
  - unfold assign; simpl. destruct (h !! q) as [obj|] eqn:Hq; [|cbn; by rewrite Hq].
    rewrite lookup_insert_eq; simpl. rewrite lookup_insert_ne by congruence.
    destruct (own obj !! k'); [done|]. rewrite <- IH. unfold assign; simpl. by rewrite Hq.
  - rewrite assign_frame by done. destruct (h !! q'); [|done].
    destruct (own _ !! k'); [done|exact IH].
Qed.

(** Writing [v] at [(q, k)], where [q] is on [hs] and is the first owner
    of [k] there (or no object of [hs] owns [k]), makes [v] the value a
    lookup of [k] along [hs] finds. *)
Lemma chain_value_assign_eq (h : heap) (hs : list nat) (q : nat) (k : string) (v : any) :
  q ∈ hs -> first_owner h hs k = Some q \/ absent_in h hs k ->
  chain_value (assign h (q, k) v) hs k = Some v.
Proof.
  induction hs as [|q' hs IH]; intros Hin Hf; [by apply elem_of_nil in Hin|]. simpl.
  destruct (decide (q' = q)) as [->|Hne].
  - assert (Hq : exists obj, h !! q = Some obj).
    { destruct Hf as [Hf|Ha]; [by eapply first_owner_lookup|].
      inversion Ha as [|? ? Hk _]; subst. destruct (h !! q); [by eexists|done]. }
    destruct Hq as [obj Hq]. unfold assign; simpl.
    rewrite Hq, lookup_insert_eq; simpl. by rewrite lookup_insert_eq.
  - rewrite assign_frame by done. apply elem_of_cons in Hin as [->|Hin]; [done|].
    destruct Hf as [Hf|Ha]; [simpl in Hf|].
    + destruct (h !! q') as [obj|]; [|discriminate].
      destruct (own obj !! k); [congruence|]. by apply IH; [|left].
    + inversion Ha as [|? ? Hk Ha']; subst.
      destruct (h !! q') as [obj|]; [|done]. rewrite Hk. by apply IH; [|right].
Qed.

Lemma fic_assign_loc (h : heap) (o : nat) (hs : list nat) (k : string) (v : any) (fuel : nat) :
  chain h o hs -> (length hs <= fuel)%nat ->
  subscript_assign subscript_fic fuel h o k v =
    Some (assign h (default o (first_owner h hs k), k) v).
Proof.
  intros Hc Hle. unfold subscript_assign, subscript_fic.
  rewrite (find_in_chain_chain h k o hs fuel Hc Hle).
  destruct (first_owner h hs k) as [q|] eqn:Hf; simpl; [done|].
  pose proof (first_owner_none_absent h k o hs Hc Hf) as Ha.
  destruct (chain_head h o hs Hc) as [hs' ->].
  inversion Ha as [|? ? Hk _]; subst.
  unfold map_subscript. destruct (h !! o) as [obj|] eqn:Ho; [|done].
  rewrite Hk. f_equal. by apply assign_after_insert_empty.
Qed.

Lemma owner_or_absent (h : heap) (o : nat) (hs : list nat) (k : string) (d : nat) :
  chain h o hs -> d ∈ hs ->
  let q := default d (first_owner h hs k) in
  q ∈ hs /\ (first_owner h hs k = Some q \/ absent_in h hs k).
Proof.
  intros Hc Hd q. subst q. destruct (first_owner h hs k) as [q|] eqn:Hf; simpl.
  - split; [by eapply first_owner_in | by left].
  - split; [done | right]. by eapply first_owner_none_absent.
Qed.

(** Reading [o[k]] right after [o[k] = v] gives [v] in both variants of
    [operator[]]: the write keeps [o]'s prototype chain, and reading any
    other key [k'] along it gives what it gave before the write. *)
Theorem subscript_write_then_read (h : heap) (o : nat) (hs : list nat)
    (k : string) (v : any) (fuel : nat) :
  chain h o hs -> (length hs <= fuel)%nat ->
  (exists h', subscript_assign subscript_fic fuel h o k v = Some h' /\
     chain h' o hs /\ subscript_value subscript_fic fuel h' o k = Some v /\
     forall k', k' <> k ->
       subscript_value subscript_fic fuel h' o k' = subscript_value subscript_fic fuel h o k') /\
  (exists h', subscript_assign subscript_rec fuel h o k v = Some h' /\
     chain h' o hs /\ subscript_value subscript_rec fuel h' o k = Some v /\
     forall k', k' <> k ->
       subscript_value subscript_rec fuel h' o k' = subscript_value subscript_rec fuel h o k').
Proof.
  intros Hc Hle.
  assert (Hread : forall sub, (forall h k, chain h o hs ->
      exists l h', sub fuel h o k = Some (l, h') /\ deref h' l = chain_value h hs k) ->
    forall q, q ∈ hs -> first_owner h hs k = Some q \/ absent_in h hs k ->
      chain (assign h (q, k) v) o hs /\
      subscript_value sub fuel (assign h (q, k) v) o k = Some v /\
      forall k', k' <> k ->
        subscript_value sub fuel (assign h (q, k) v) o k' = subscript_value sub fuel h o k').
  { intros sub Hsub q Hin Hf. pose proof (chain_assign h (q, k) v o hs Hc) as Hc'.
    split; [exact Hc'|]. unfold subscript_value. split.
    - destruct (Hsub _ k Hc') as (l & h' & -> & Hd).
      rewrite Hd. by apply chain_value_assign_eq.
    - intros k' Hk. destruct (Hsub _ k' Hc') as (l & h' & -> & Hd).
      destruct (Hsub _ k' Hc) as (l0 & h0 & -> & Hd0).
      rewrite Hd, Hd0. by apply chain_value_assign_ne. }
  destruct (chain_head h o hs Hc) as [hs' Ehs].
  split.
  - rewrite (fic_assign_loc h o hs k v fuel Hc Hle). eexists; split; [reflexivity|].
    destruct (owner_or_absent h o hs k o Hc ltac:(rewrite Ehs; left)) as [Hin Hf].
    apply Hread; [|done..]. intros h0 k0 Hc0. by apply (subscript_fic_chain h0 k0 o hs).
  - destruct (rec_assign_loc h o hs k v fuel Hc Hle) as (r & Hl & ->).
    eexists; split; [reflexivity|].
    destruct (owner_or_absent h o hs k r Hc ltac:(by apply last_Some_elem_of)) as [Hin Hf].
    apply Hread; [|done..]. intros h0 k0 Hc0. by apply (subscript_rec_chain h0 k0 o hs).
Qed.

Lemma proto_test_chain : chain proto_test_heap 0 [0%nat; 1%nat].
Proof.
  apply (chain_proto _ 0 (mk_object (<["a" := AInt 1]> (<["b" := AInt 2]> ∅)) (Some 1%nat)) 1);
    [vm_compute; reflexivity | reflexivity |].
  apply (chain_null _ 1 (mk_object (<["b" := AInt 3]> (<["c" := AInt 4]> ∅)) None));
    [vm_compute; reflexivity | reflexivity].
Qed.

Lemma subscript_write_then_read_witness :
  (exists h', subscript_assign subscript_fic 2 proto_test_heap 0 "c" (AInt 5) = Some h' /\
     chain h' 0 [0%nat; 1%nat] /\ subscript_value subscript_fic 2 h' 0 "c" = Some (AInt 5) /\
     forall k', k' <> "c" ->
       subscript_value subscript_fic 2 h' 0 k' = subscript_value subscript_fic 2 proto_test_heap 0 k') /\
  (exists h', subscript_assign subscript_rec 2 proto_test_heap 0 "c" (AInt 5) = Some h' /\
     chain h' 0 [0%nat; 1%nat] /\ subscript_value subscript_rec 2 h' 0 "c" = Some (AInt 5) /\
     forall k', k' <> "c" ->
       subscript_value subscript_rec 2 h' 0 k' = subscript_value subscript_rec 2 proto_test_heap 0 k').
Proof.
  apply (subscript_write_then_read proto_test_heap 0 [0%nat; 1%nat] "c" (AInt 5) 2);
    [exact proto_test_chain | simpl; lia].
Defined.

Lemma keeps_objects_refl (h : heap) : keeps_objects h h.
Proof. intros q. destruct (h !! q); [done|exact I]. Qed.

Lemma keeps_objects_insert_absent (h : heap) (r : nat) (obj : object) (k : string) (a : any) (p : option nat) :
  h !! r = Some obj -> own obj !! k = None -> p = __proto__ obj ->
  keeps_objects h (<[r := mk_object (<[k := a]> (own obj)) p]> h).
Proof.
  intros Hr Hk ->. intros q. destruct (decide (q = r)) as [->|Hne].
  - rewrite Hr, lookup_insert_eq; simpl. split; [done|]. by apply insert_subseteq.
  - rewrite lookup_insert_ne by congruence. destruct (h !! q); [done|exact I].
Qed.

Lemma keeps_objects_chain (h h' : heap) (o : nat) (hs : list nat) :
  keeps_objects h h' -> chain h o hs -> chain h' o hs.
Proof.
  intros Hk. induction 1 as [o obj Ho Hp | o obj p hs Ho Hp Hc IH];
    specialize (Hk o); rewrite Ho in Hk; destruct (h' !! o) as [obj'|] eqn:Ho'; try done;
    destruct Hk as [Hp' _].
  - apply (chain_null _ o obj'); congruence.
  - apply (chain_proto _ o obj' p); congruence.
Qed.

(** Reading [o[k]] (the reference [operator[]] returns, before any
    assignment through it) never removes an object, never changes a
    [__proto__] and never drops or overwrites an own property, in both
    variants: [o]'s chain is unchanged. *)
Theorem subscript_read_keeps_objects (h : heap) (o : nat) (hs : list nat)
    (k : string) (fuel : nat) :
  chain h o hs -> (length hs <= fuel)%nat ->
  (exists l h', subscript_fic fuel h o k = Some (l, h') /\
     keeps_objects h h' /\ chain h' o hs) /\
  (exists l h', subscript_rec fuel h o k = Some (l, h') /\
     keeps_objects h h' /\ chain h' o hs).
Proof.
  intros Hc Hle. split.
  - unfold subscript_fic. rewrite (find_in_chain_chain h k o hs fuel Hc Hle).
    destruct (first_owner h hs k) as [q|] eqn:Hf.
    + exists (q, k), h. split; [done|]. split; [apply keeps_objects_refl|done].
    + pose proof (first_owner_none_absent h k o hs Hc Hf) as Ha.
      destruct (chain_head h o hs Hc) as [hs' ->].
      inversion Ha as [|? ? Hk _]; subst.
      unfold map_subscript. destruct (h !! o) as [obj|] eqn:Ho; [|done]. rewrite Hk.
      eexists _, _; split; [reflexivity|].
      assert (Hkeep : keeps_objects h (<[o := mk_object (<[k := AEmpty]> (own obj)) (__proto__ obj)]> h))
        by by apply keeps_objects_insert_absent.
      split; [exact Hkeep | by eapply keeps_objects_chain].
  - pose proof (subscript_rec_loc h k o hs fuel Hc Hle) as Hloc.
    destruct (first_owner h hs k) as [q|].
    + exists (q, k), h. split; [done|]. split; [apply keeps_objects_refl|done].
    + destruct Hloc as (r & obj & _ & Hr & Hp & Hk & ->).
      eexists _, _; split; [reflexivity|].
      assert (Hkeep : keeps_objects h (<[r := mk_object (<[k := AEmpty]> (own obj)) None]> h))
        by by apply keeps_objects_insert_absent.
      split; [exact Hkeep | by eapply keeps_objects_chain].
Qed.

Lemma subscript_read_keeps_objects_witness :
  (exists l h', subscript_fic 2 proto_test_heap 0 "d" = Some (l, h') /\
     keeps_objects proto_test_heap h' /\ chain h' 0 [0%nat; 1%nat]) /\
  (exists l h', subscript_rec 2 proto_test_heap 0 "d" = Some (l, h') /\
     keeps_objects proto_test_heap h' /\ chain h' 0 [0%nat; 1%nat]).
Proof.
  apply (subscript_read_keeps_objects proto_test_heap 0 [0%nat; 1%nat] "d" 2);
    [exact proto_test_chain | simpl; lia].
Defined.

(** [unordered_map<string, any>::operator[]] (arrays_test,
    [src/test/cpp/src/main.cpp] 87-101): [m[k] = v] sets the own slot [k]
    of [m] to [v]; reading [m[k]] afterwards inserts nothing and gives
    [v]. *)
Theorem map_subscript_write_then_read (h : heap) (o : nat) (obj : object) (k : string) (v : any) :
  h !! o = Some obj ->
  let h' := <[o := mk_object (<[k := v]> (own obj)) (__proto__ obj)]> h in
  (exists h1, map_subscript h o k = Some ((o, k), h1) /\ assign h1 (o, k) v = h') /\
  map_subscript h' o k = Some ((o, k), h') /\ deref h' (o, k) = Some v.
Proof.
  intros Ho h'. split; [|split].
  - unfold map_subscript. rewrite Ho. destruct (own obj !! k) eqn:Ek.
    + eexists; split; [reflexivity|]. unfold assign; simpl. by rewrite Ho.
    + eexists; split; [reflexivity|]. rewrite assign_after_insert_empty by done. unfold assign; simpl. by rewrite Ho.
  - unfold map_subscript, h'. rewrite lookup_insert_eq; simpl. by rewrite lookup_insert_eq.
  - unfold deref, h'; simpl. rewrite lookup_insert_eq; simpl. by rewrite lookup_insert_eq.
Qed.

Lemma map_subscript_write_then_read_witness :
  let fruits := mk_object (<["0" := AString "Mango"]> (<["1" := AString "Apple"]>
                            {["2" := AString "Orange"]})) None in
  let h := {[0%nat := fruits]} in
  let h' := <[0%nat := mk_object (<["model" := AString "Mustang"]> (own fruits))
                                 (__proto__ fruits)]> h in
  (exists h1, map_subscript h 0 "model" = Some ((0%nat, "model"), h1) /\
     assign h1 (0%nat, "model") (AString "Mustang") = h') /\
  map_subscript h' 0 "model" = Some ((0%nat, "model"), h') /\
  deref h' (0%nat, "model") = Some (AString "Mustang").
Proof.
  intros fruits h.
  apply (map_subscript_write_then_read h 0 fruits "model" (AString "Mustang")).
  vm_compute. reflexivity.
Defined.

(** ** [this_::add] *)

Lemma subscript_value_chain (h : heap) (o : nat) (hs : list nat) (fuel : nat) (k : string) :
  chain h o hs -> (length hs <= fuel)%nat ->
  subscript_value subscript_fic fuel h o k = chain_value h hs k /\
  subscript_value subscript_rec fuel h o k = chain_value h hs k.
Proof.
  intros Hc Hle. unfold subscript_value. split.
  - by destruct (subscript_fic_chain h k o hs fuel Hc Hle) as (l & h' & -> & Hd).
  - by destruct (subscript_rec_chain h k o hs fuel Hc Hle) as (l & h' & -> & Hd).
Qed.

Lemma this_add_reads (sub : nat -> heap -> nat -> string -> option (loc * heap))
    (fuel : nat) (h : heap) (o : nat) (va vb : any) (arguments : list any) :
  subscript_value sub fuel h o "a" = Some va ->
  subscript_value sub fuel h o "b" = Some vb ->
  this_add sub fuel h (AObj o) arguments =
    (a ← any_cast_int va; b ← any_cast_int vb;
     x ← vector_at arguments 0 ≫= any_cast_int;
     y ← vector_at arguments 1 ≫= any_cast_int;
     s1 ← int_add a b; s2 ← int_add s1 x; AInt <$> int_add s2 y).
Proof. intros Ha Hb. unfold this_add. simpl. by rewrite Ha, Hb. Qed.

(** [this_::add] reads ["a"] and ["b"] along [this]'s prototype chain (in
    both variants of [operator[]]): when they hold [int]s [a], [b], the
    first two arguments hold [int]s [x], [y] and no partial sum overflows,
    it returns [a + b + x + y]; further arguments are ignored. *)
Theorem this_add_sum (h : heap) (o : nat) (hs : list nat) (fuel : nat)
    (a b x y : Z) (rest : list any) :
  chain h o hs -> (length hs <= fuel)%nat ->
  chain_value h hs "a" = Some (AInt a) -> chain_value h hs "b" = Some (AInt b) ->
  running_sums_in_range a [b; x; y] = true ->
  this_add subscript_fic fuel h (AObj o) (AInt x :: AInt y :: rest) = Ok (AInt (a + b + x + y)) /\
  this_add subscript_rec fuel h (AObj o) (AInt x :: AInt y :: rest) = Ok (AInt (a + b + x + y)).
Proof.
  intros Hc Hle Ha Hb Hr.
  destruct (subscript_value_chain h o hs fuel "a" Hc Hle) as [Hfa Hra].
  destruct (subscript_value_chain h o hs fuel "b" Hc Hle) as [Hfb Hrb].
  simpl in Hr. apply andb_prop in Hr as [H1 Hr]. apply andb_prop in Hr as [H2 Hr].
  apply andb_prop in Hr as [H3 _].
  split; [rewrite (this_add_reads _ _ _ _ _ _ _ (eq_trans Hfa Ha) (eq_trans Hfb Hb))
         |rewrite (this_add_reads _ _ _ _ _ _ _ (eq_trans Hra Ha) (eq_trans Hrb Hb))];
    simpl; rewrite (int_add_in_range _ _ H1); simpl; rewrite (int_add_in_range _ _ H2); simpl;
    rewrite (int_add_in_range _ _ H3); reflexivity.
Qed.

Lemma this_add_sum_witness :
  this_add subscript_fic 2 proto_test_heap (AObj 0) [AInt 10; AInt 20] = Ok (AInt 33) /\
  this_add subscript_rec 2 proto_test_heap (AObj 0) [AInt 10; AInt 20] = Ok (AInt 33).
Proof.
  apply (this_add_sum proto_test_heap 0 [0%nat; 1%nat] 2 1 2 10 20 []);
    [exact proto_test_chain | simpl; lia | reflexivity..].
Defined.



(** With fewer than two arguments (all [int]s) and ["a"], ["b"] holding
    [int]s, [arguments[1]] is out of range: undefined behaviour. *)
Theorem this_add_too_few_arguments (h : heap) (o : nat) (hs : list nat) (fuel : nat)
    (a b : Z) (arguments : list any) :
  chain h o hs -> (length hs <= fuel)%nat ->
  chain_value h hs "a" = Some (AInt a) -> chain_value h hs "b" = Some (AInt b) ->
  Forall (fun v => exists z, v = AInt z) arguments -> (length arguments < 2)%nat ->
  this_add subscript_fic fuel h (AObj o) arguments = Undefined_behavior /\
  this_add subscript_rec fuel h (AObj o) arguments = Undefined_behavior.
Proof.
  intros Hc Hle Ha Hb Hall Hlen.
  destruct (subscript_value_chain h o hs fuel "a" Hc Hle) as [Hfa Hra].
  destruct (subscript_value_chain h o hs fuel "b" Hc Hle) as [Hfb Hrb].
  rewrite (this_add_reads _ _ _ _ _ _ _ (eq_trans Hfa Ha) (eq_trans Hfb Hb)),
          (this_add_reads _ _ _ _ _ _ _ (eq_trans Hra Ha) (eq_trans Hrb Hb)).
  destruct arguments as [|v [|w rest]]; simpl in Hlen; try lia; [done|].
  inversion Hall as [|? ? [z ->] _]; subst. done.
Qed.

Lemma this_add_too_few_arguments_witness :
  this_add subscript_fic 2 proto_test_heap (AObj 0) [AInt 10] = Undefined_behavior /\
  this_add subscript_rec 2 proto_test_heap (AObj 0) [AInt 10] = Undefined_behavior.
Proof.
  apply (this_add_too_few_arguments proto_test_heap 0 [0%nat; 1%nat] 2 1 2 [AInt 10]);
    [exact proto_test_chain | simpl; lia | reflexivity | reflexivity | | simpl; lia].
  apply List.Forall_cons; [by exists 10 | apply List.Forall_nil].
Defined.

(** ** [js_new] *)

Lemma chain_in_heap (h : heap) (o : nat) (hs : list nat) :
  chain h o hs -> Forall (fun q => is_Some (h !! q)) hs.
Proof.
  induction 1 as [o obj Ho Hp | o obj p hs Ho Hp Hc IH];
    (apply List.Forall_cons; [by eexists|]); [apply List.Forall_nil|exact IH].
Qed.

Lemma first_owner_agree (h h' : heap) (hs : list nat) (k : string) :
  Forall (fun q => h' !! q = h !! q) hs ->
  first_owner h' hs k = first_owner h hs k /\ chain_value h' hs k = chain_value h hs k.
Proof.
  induction 1 as [|q hs Hq _ [IH1 IH2]]; [done|]. simpl. rewrite Hq.
  destruct (h !! q) as [obj|]; [|done]. by destruct (own obj !! k).
Qed.

Lemma fresh_agree (h : heap) (o : nat) (x : object) (c : nat) (hs : list nat) :
  h !! o = None -> chain h c hs ->
  Forall (fun q => <[o := x]> h !! q = h !! q) hs.
Proof.
  intros Ho Hc. eapply Forall_impl; [exact (chain_in_heap h c hs Hc)|].
  intros q [obj Hq]. rewrite lookup_insert_ne; [done|congruence].
Qed.

Lemma chain_insert_fresh (h : heap) (o : nat) (x : object) (c : nat) (hs : list nat) :
  h !! o = None -> chain h c hs -> chain (<[o := x]> h) c hs.
Proof.
  intros Ho. induction 1 as [c obj Hc Hp | c obj p hs Hc Hp Hch IH].
  - apply (chain_null _ c obj); [|done]. rewrite lookup_insert_ne; [done|congruence].
  - apply (chain_proto _ c obj p); [|done|done]. rewrite lookup_insert_ne; [done|congruence].
Qed.

Lemma absent_insert_fresh (h : heap) (o : nat) (x : object) (hs : list nat) (k : string) :
  h !! o = None -> absent_in h hs k -> absent_in (<[o := x]> h) hs k.
Proof.
  intros Ho Ha. eapply Forall_impl; [exact Ha|]. intros q Hq.
  cbv beta in Hq |- *. destruct (h !! q) as [obj|] eqn:Hq'; [|exact (False_rect _ Hq)].
  rewrite lookup_insert_ne, Hq'; [done|congruence].
Qed.

Lemma fresh_dom_none (h : heap) : h !! fresh (dom h) = None.
Proof. apply not_elem_of_dom_1, is_fresh. Qed.

Lemma chain_value_obj_owner (h : heap) (c : nat) (hs : list nat) (k : string) (p : nat) :
  chain h c hs -> chain_value h hs k = Some (AObj p) ->
  exists q, first_owner h hs k = Some q /\ deref h (q, k) = Some (AObj p).
Proof.
  intros Hc Hv. destruct (first_owner h hs k) as [q|] eqn:Hf.
  - exists q. split; [done|]. by rewrite <- (first_owner_some_value h k hs q Hf).
  - rewrite (absent_chain_value h k hs (first_owner_none_absent h k c hs Hc Hf)) in Hv.
    discriminate.
Qed.

Lemma js_new_read_prototype (fuel : nat) (h : heap) (c : nat) (hs : list nat) (x : object) :
  chain h c hs -> (length hs <= fuel)%nat ->
  let o := fresh (dom h) in
  exists l h2, subscript_fic fuel (<[o := x]> h) c "prototype" = Some (l, h2) /\
    deref h2 l = chain_value h hs "prototype".
Proof.
  intros Hc Hle o. pose proof (fresh_dom_none h) as Ho.
  destruct (subscript_fic_chain (<[o := x]> h) "prototype" c hs fuel
              (chain_insert_fresh h o x c hs Ho Hc) Hle) as (l & h2 & Hs & Hd).
  exists l, h2. split; [done|]. rewrite Hd.
  exact (proj2 (first_owner_agree h _ hs _ (fresh_agree h o x c hs Ho Hc))).
Qed.

(** [js_new] throws [bad_any_cast] when the constructor's ["prototype"]
    (looked up along its chain) does not hold an object handle, in
    particular when no object of the chain has it: the constructor body is
    never run. *)
Theorem js_new_prototype_not_object (fuel : nat)
    (body : heap -> any -> list any -> result (any * heap))
    (h : heap) (c : nat) (hs : list nat) (arguments : list any) (a : any) :
  chain h c hs -> (length hs <= fuel)%nat ->
  chain_value h hs "prototype" = Some a -> (forall p, a <> AObj p) ->
  js_new fuel body h c arguments = Bad_any_cast.
Proof.
  intros Hc Hle Hv Ha. unfold js_new, make_js_object.
  destruct (js_new_read_prototype fuel h c hs (mk_object ∅ None) Hc Hle) as (l & h2 & Hs & Hd).
  simpl. rewrite Hs. simpl. rewrite Hd, Hv.
  destruct a; try reflexivity. exfalso. by apply (Ha h0).
Qed.

Lemma js_new_prototype_not_object_witness :
  js_new 2 (thing_body 2) proto_test_heap 0 [] = Bad_any_cast.
Proof.
  apply (js_new_prototype_not_object 2 (thing_body 2) proto_test_heap 0 [0%nat; 1%nat] [] AEmpty);
    [exact proto_test_chain | simpl; lia | reflexivity | discriminate].
Defined.

Lemma js_new_eq (fuel : nat)
    (body : heap -> any -> list any -> result (any * heap))
    (h : heap) (c : nat) (hs : list nat) (arguments : list any) (p : nat) :
  chain h c hs -> (length hs <= fuel)%nat ->
  chain_value h hs "prototype" = Some (AObj p) ->
  let o := fresh (dom h) in
  js_new fuel body h c arguments =
    ('(_, h4) ← body (<[o := mk_object ∅ (Some p)]> h) (AObj o) arguments; Ok (o, h4)).
Proof.
  intros Hc Hle Hv o. pose proof (fresh_dom_none h) as Ho.
  set (h1 := <[o := mk_object ∅ None]> h).
  destruct (chain_value_obj_owner h c hs "prototype" p Hc Hv) as (q & Hf & Hd).
  destruct (first_owner_agree h h1 hs "prototype" (fresh_agree h o _ c hs Ho Hc)) as [Hf1 Hv1].
  assert (Hs : subscript_fic fuel h1 c "prototype" = Some ((q, "prototype"), h1)).
  { unfold subscript_fic.
    rewrite (find_in_chain_chain h1 "prototype" c hs fuel (chain_insert_fresh h o _ c hs Ho Hc) Hle).
    by rewrite Hf1, Hf. }
  assert (Hd1 : deref h1 (q, "prototype") = Some (AObj p)).
  { rewrite <- (first_owner_some_value h1 "prototype" hs q (eq_trans Hf1 Hf)).
    by rewrite Hv1. }
  unfold js_new, make_js_object. fold o. fold h1. simpl. rewrite Hs. simpl. rewrite Hd1. simpl.
  unfold h1. rewrite lookup_insert_eq. simpl. by rewrite insert_insert_eq.
Qed.

(** When the constructor's ["prototype"] holds the handle [p], [js_new]
    allocates a fresh object whose [__proto__] is [p] and no own property,
    then runs the constructor body on it with the arguments, and returns
    the new handle with the heap the body leaves. *)
Theorem js_new_runs_body (fuel : nat)
    (body : heap -> any -> list any -> result (any * heap))
    (h : heap) (c : nat) (hs : list nat) (arguments : list any) (p : nat) :
  chain h c hs -> (length hs <= fuel)%nat ->
  chain_value h hs "prototype" = Some (AObj p) ->
  let o := fresh (dom h) in
  js_new fuel body h c arguments =
    ('(_, h4) ← body (<[o := mk_object ∅ (Some p)]> h) (AObj o) arguments; Ok (o, h4)).
Proof.
  intros Hc Hle Hv o. exact (js_new_eq fuel body h c hs arguments p Hc Hle Hv).
Qed.

Lemma thing_heap_chain : chain thing_heap 0 [0%nat].
Proof.
  apply (chain_null _ 0 (mk_object {["prototype" := AObj 1]} None));
    [vm_compute; reflexivity | reflexivity].
Qed.

Lemma js_new_runs_body_witness :
  js_new 2 (thing_body 2) thing_heap 0 [] =
    ('(_, h4) ← thing_body 2 (<[fresh (dom thing_heap) := mk_object ∅ (Some 1%nat)]> thing_heap)
                  (AObj (fresh (dom thing_heap))) []; Ok (fresh (dom thing_heap), h4)).
Proof.
  apply (js_new_runs_body 2 (thing_body 2) thing_heap 0 [0%nat] [] 1);
    [exact thing_heap_chain | simpl; lia | reflexivity].
Defined.

Lemma thing_step (fuel : nat) (h : heap) (o p : nat) (hp : list nat)
    (m : gmap string any) (k : string) (v : any) :
  h !! o = None -> chain h p hp -> (S (length hp) <= fuel)%nat ->
  absent_in h hp k -> m !! k = None ->
  subscript_assign subscript_fic fuel (<[o := mk_object m (Some p)]> h) o k v =
    Some (<[o := mk_object (<[k := v]> m) (Some p)]> h).
Proof.
  intros Ho Hc Hle Ha Hm. set (h' := <[o := mk_object m (Some p)]> h).
  assert (Hc' : chain h' o (o :: hp)).
  { apply (chain_proto _ o (mk_object m (Some p)) p); [apply lookup_insert_eq|done|].
    by apply chain_insert_fresh. }
  rewrite (fic_assign_loc h' o (o :: hp) k v fuel Hc' Hle). simpl.
  replace (h' !! o) with (Some (mk_object m (Some p))) by (symmetry; apply lookup_insert_eq). simpl. rewrite Hm.
  rewrite (proj1 (first_owner_agree h h' hp k (fresh_agree h o _ p hp Ho Hc))).
  rewrite (absent_first_owner h k hp Ha). simpl. f_equal.
  unfold assign, h'; simpl. rewrite lookup_insert_eq; simpl. by rewrite insert_insert_eq.
Qed.

(** [js_new] with the classes_new_test constructor ([this["x"] = 42;
    this["y"] = 3.14]): when no object of the prototype [p]'s chain has
    ["x"] or ["y"], the new object gets both as own properties, its
    [__proto__] is [p], and no other object of the heap changes. *)
Theorem js_new_thing (fuel : nat) (h : heap) (c p : nat) (hs hp : list nat)
    (arguments : list any) :
  chain h c hs -> (length hs <= fuel)%nat ->
  chain_value h hs "prototype" = Some (AObj p) ->
  chain h p hp -> (S (length hp) <= fuel)%nat ->
  absent_in h hp "x" -> absent_in h hp "y" ->
  let o := fresh (dom h) in
  js_new fuel (thing_body fuel) h c arguments =
    Ok (o, <[o := mk_object (<["y" := ADouble (314 # 100)]> (<["x" := AInt 42]> ∅)) (Some p)]> h).
Proof.
  intros Hc Hle Hv Hp Hlp Hx Hy o. pose proof (fresh_dom_none h) as Ho.
  rewrite (js_new_eq fuel (thing_body fuel) h c hs arguments p Hc Hle Hv).
  fold o. unfold thing_body.
  rewrite (thing_step fuel h o p hp ∅ "x" (AInt 42) Ho Hp Hlp Hx (lookup_empty _)).
  rewrite (thing_step fuel h o p hp _ "y" (ADouble (314 # 100)) Ho Hp Hlp Hy); [reflexivity|].
  by rewrite lookup_insert_ne.
Qed.

Lemma js_new_thing_witness :
  js_new 2 (thing_body 2) thing_heap 0 [] =
    Ok (fresh (dom thing_heap),
        <[fresh (dom thing_heap) := mk_object (<["y" := ADouble (314 # 100)]> (<["x" := AInt 42]> ∅))
                                             (Some 1%nat)]> thing_heap).
Proof.
  apply (js_new_thing 2 thing_heap 0 1 [0%nat] [1%nat] []);
    [exact thing_heap_chain | simpl; lia | reflexivity | | simpl; lia | |].
  - apply (chain_null _ 1 (mk_object (<["f" := AObj 2]> {["g" := AObj 3]}) None));
      [vm_compute; reflexivity | reflexivity].
  - apply List.Forall_cons; [vm_compute; reflexivity | apply List.Forall_nil].
  - apply List.Forall_cons; [vm_compute; reflexivity | apply List.Forall_nil].
Defined.
